(** * handler.js: the four Lambda handlers of the Step Functions demo

    A shallow embedding of [src/handler.js].  Every handler is a chain of
    callback-taking steps handed to [async.waterfall]; the steps talk to the
    AWS SDK (Step Functions, S3, DynamoDB, SES) and finish the invocation
    through [context.succeed] / [context.fail].

    The embedding records what a handler does as a chronological log:
    the SDK requests it issues, the terminal signals it sends to [context],
    and the bookkeeping of the waterfall (which step was invoked, which
    callback fired).  The SDK is an oracle ([World]) that decides how each
    request completes.  [console.log] calls are not recorded.

    Strings stand for JavaScript strings through their UTF-8 bytes. *)

From Stdlib Require Import String Ascii List Bool Arith Lia.
From stdpp Require Import base gmap strings list.

Local Open Scope string_scope.
Local Open Scope list_scope.

(** ** Data *)

(** The error object an SDK call hands to its callback. *)
Record AwsError := { code : string; message : string }.

(** One entry of [data.stateMachines] (handler.js:31-34). *)
Record StateMachine := { name : string; stateMachineArn : string }.

(** One entry of [event.Records]: [s3.bucket.name] and [s3.object.key]
    (handler.js:45). *)
Record S3Record := { s3_bucket_name : string; s3_object_key : string }.

(** The event of [executeWorkflow]: it either has the property [Records]
    (handler.js:17) or it has not. *)
Inductive TriggerEvent :=
| WithRecords (Records : list S3Record)
| WithoutRecords.

(** The event of [processFile], [moveFile] and [sendEmail]
    (handler.js:62-66).  [sendEmail] also reads [event.sourceBucket] into
    a constant it never uses (handler.js:187). *)
Record FileEvent := { bucketName : string; objectKey : string }.

(** The JavaScript values that flow through callbacks and terminal signals. *)
Inductive Value :=
| VUndefined
| VNull
| VStr (s : string)
| VError (e : AwsError)
| VTypeError
| VListing (stateMachines : list StateMachine)
| VResponse
| VFile (e : FileEvent)
| VMoved (bucket key newLocation : string).

(** JavaScript truthiness, as tested by [if (err)]. *)
Definition truthy (v : Value) : bool :=
  match v with
  | VUndefined | VNull => false
  | VStr s => negb (String.eqb s "")
  | _ => true
  end.

(** The [Item] of a [putItem] request (handler.js:94-104).  [data[i]] of a
    row with fewer fields is [undefined], here [None]. *)
Record Item := {
  sensor_id_S : option string;
  timestamp_N : option string;
  value_N : option string
}.

(** The SDK requests of handler.js with the parameters the code passes. *)
Inductive Call :=
| ListStateMachines
| StartExecution (arn : Value) (input : string)
| WaitForObjectExists (Bucket Key : string)
| GetObjectStream (Bucket Key : string)
| PutItem (TableName : string) (item : Item)
| CopyObject (Bucket Key CopySource : string)
| DeleteObject (Bucket Key : string)
| SendEmail (ToAddresses : list string) (BodyText Subject Source : string).

(** How a request that was given a callback completes. *)
Inductive Reply :=
| Failure (e : AwsError)
| Success (data : Value).

(** The collaborators: the answer of the SDK to each request, and the rows
    the CSV reader emits for the stream of an object. *)
Record World := {
  respond : Call -> Reply;
  stream_rows : string -> string -> list (list string)
}.

(** [process.env]: the variables the handlers read, set by the
    deployment. *)
Record Env := {
  STEP_FUNCTION_NAME : string;
  TARGET_BUCKET : string;
  DEST_EMAIL : string
}.

(** ** Logs *)

(** What the code of a step or of a final callback does. *)
Inductive Effect :=
| Request (c : Call)
| Succeed (v : Value)
| Fail (v : Value).

(** What one invocation does, the waterfall's bookkeeping included. *)
Inductive Event :=
| Invoked (i : nat)
| Fired (i : nat) (err res : Value)
| Completed (err res : Value)
| Uncaught (exn : Value)
| Did (e : Effect).

(** A log has the part that happens during the run and the part that
    happens in later turns of the event loop (stream events). *)
Record Log (A : Type) := mkLog { now : list A; later : list A }.
Arguments mkLog {A} _ _.
Arguments now {A} _.
Arguments later {A} _.

Definition quiet {A} : Log A := mkLog [] [].
Definition say {A} (l : list A) : Log A := mkLog l [].
Definition defer {A} (l : list A) : Log A := mkLog [] l.

Definition lapp {A} (a b : Log A) : Log A :=
  mkLog (now a ++ now b) (later a ++ later b).

Definition lmap {A B} (f : A -> B) (a : Log A) : Log B :=
  mkLog (map f (now a)) (map f (later a)).

(** The whole log in the order things happen. *)
Definition trace {A} (a : Log A) : list A := now a ++ later a.

Infix "+++" := lapp (at level 60, right associativity).

(** ** The stage executor *)

(** How a step ends: it calls its callback [next(err, res)] (at once or
    from the callback of an SDK request), it throws, or it returns without
    ever calling back. *)
Inductive Outcome :=
| Called (err res : Value)
| Raised (exn : Value)
| Returned.

Definition Step : Type := Value -> Log Effect * Outcome.
Definition Callback : Type := Value -> Value -> Log Effect.

(** What the executor does with an exception thrown by a step.  The
    [async] package is a dependency and not part of the sources, so both
    readings are kept: the exception leaves the executor, or it is handed
    to the final callback as the specification asks. *)
Inductive ThrowPolicy := Propagate | RouteToCallback.

Section Waterfall.
Variable policy : ThrowPolicy.
(** The final callback; [None] when [async.waterfall] is called with the
    list of steps alone, as [executeWorkflow] does (handler.js:21-51). *)
Variable callback : option Callback.

(** The executor calls the final callback (an empty function when none
    was given). *)
Definition complete (err res : Value) : Log Event :=
  say [Completed err res] +++
  match callback with
  | Some cb => lmap Did (cb err res)
  | None => quiet
  end.

(** Modelled from the spec: the stage executor [async.waterfall] (the
    [async] package is not among the sources).  Steps run strictly in
    order, each on the result of the one before; a step begins only when
    the callback of the previous step has fired; at the first error the
    remaining steps are skipped and the final callback gets the error;
    after the last step the final callback gets the last result. *)
Fixpoint nextTask (taskIndex : nat) (tasks : list Step) (arg : Value) : Log Event :=
  match tasks with
  | [] => complete VNull arg
  | task :: rest =>
      let (done, outcome) := task arg in
      say [Invoked taskIndex] +++ lmap Did done +++
      match outcome with
      | Called err res =>
          say [Fired taskIndex err res] +++
          (if truthy err then complete err res
           else nextTask (S taskIndex) rest res)
      | Raised exn =>
          match policy with
          | Propagate => say [Uncaught exn]
          | RouteToCallback => complete exn VUndefined
          end
      | Returned => quiet
      end
  end.

Definition waterfall (tasks : list Step) : Log Event :=
  match tasks with
  | [] => complete VUndefined VUndefined
  | _ => nextTask 0 tasks VUndefined
  end.
End Waterfall.

(** ** Built-in string functions *)

Definition dquote : ascii := "034"%char.
Definition backslash : ascii := "092"%char.

Definition hex_digit (digits : string) (n : nat) : ascii :=
  nth n (list_ascii_of_string digits) "0"%char.

(** [JSON.stringify] on a string: the characters between the quotes. *)
Definition json_escape_char (c : ascii) : string :=
  let n := nat_of_ascii c in
  if Ascii.eqb c dquote then String backslash (String dquote "")
  else if Ascii.eqb c backslash then String backslash (String backslash "")
  else if (n =? 8)%nat then String backslash "b"
  else if (n =? 9)%nat then String backslash "t"
  else if (n =? 10)%nat then String backslash "n"
  else if (n =? 12)%nat then String backslash "f"
  else if (n =? 13)%nat then String backslash "r"
  else if (n <? 32)%nat then
    String backslash
      ("u00" +:+ String (hex_digit "0123456789abcdef" (n / 16))
                   (String (hex_digit "0123456789abcdef" (n mod 16)) ""))
  else String c "".

Fixpoint json_escape (s : string) : string :=
  match s with
  | EmptyString => ""
  | String c rest => json_escape_char c +:+ json_escape rest
  end.

Definition json_string (s : string) : string :=
  String dquote (json_escape s +:+ String dquote "").

(** [JSON.stringify({ objectKey: key, bucketName: name })]
    (handler.js:45): the properties in the order they are written. *)
Definition stringify_input (key name : string) : string :=
  "{" +:+ json_string "objectKey" +:+ ":" +:+ json_string key +:+ ","
      +:+ json_string "bucketName" +:+ ":" +:+ json_string name +:+ "}".

(** [s] between double quotes. *)
Definition quoted (s : string) : string := String dquote (s +:+ String dquote "").

(** The characters [JSON.stringify] copies unchanged. *)
Definition json_plain_char (c : ascii) : bool :=
  negb (Ascii.eqb c dquote) && negb (Ascii.eqb c backslash)
  && (32 <=? nat_of_ascii c)%nat.

Fixpoint json_plain (s : string) : bool :=
  match s with
  | EmptyString => true
  | String c rest => json_plain_char c && json_plain rest
  end.

(** [encodeURIComponent]: every byte but letters, digits and [-_.!~*'()]
    becomes [%XX]. *)
Definition uri_unreserved (c : ascii) : bool :=
  let n := nat_of_ascii c in
  ((65 <=? n)%nat && (n <=? 90)%nat) || ((97 <=? n)%nat && (n <=? 122)%nat)
  || ((48 <=? n)%nat && (n <=? 57)%nat)
  || existsb (Ascii.eqb c) (list_ascii_of_string "-_.!~*'()").

Definition percent_encode (c : ascii) : string :=
  let n := nat_of_ascii c in
  String "%"%char (String (hex_digit "0123456789ABCDEF" (n / 16))
                     (String (hex_digit "0123456789ABCDEF" (n mod 16)) "")).

Fixpoint encodeURIComponent (s : string) : string :=
  match s with
  | EmptyString => ""
  | String c rest =>
      (if uri_unreserved c then String c "" else percent_encode c)
      +:+ encodeURIComponent rest
  end.

(** ** The handlers *)

Definition not_found_message : string :=
  "Step function with the given name doesn't exist".

Definition no_records_message : string :=
  "Incoming message doesn't contain " +:+ String dquote "Records"
  +:+ String dquote ", it will be ignored".

(** The loop of handler.js:30-36: the ARN of the first state machine
    whose name is the wanted one. *)
Fixpoint scan (stateMachineName : string) (machines : list StateMachine) : option string :=
  match machines with
  | [] => None
  | item :: rest =>
      if String.eqb (name item) stateMachineName
      then Some (stateMachineArn item)
      else scan stateMachineName rest
  end.

(** The row handler of handler.js:92-107: one [dynamodb.putItem] call for
    the row, with no callback. *)
Definition putItem_of_row (data : list string) : Call :=
  PutItem "sensor_data"
    {| sensor_id_S := data !! 0; timestamp_N := data !! 1; value_N := data !! 2 |}.

Section Handlers.
Variable policy : ThrowPolicy.
Variable w : World.
Variable env : Env.

(** An SDK request whose callback is the step's [next]: the callback
    gets [(err, null)] or [(null, data)]. *)
Definition sdk (c : Call) : Log Effect * Outcome :=
  (say [Request c],
   match respond w c with
   | Failure e => Called (VError e) VNull
   | Success data => Called VNull data
   end).

(** handler.js:22-25 *)
Definition listWorkflows : Step := fun _ => sdk ListStateMachines.

(** handler.js:26-39 *)
Definition resolveWorkflow (stateMachineName : string) : Step := fun data =>
  match data with
  | VListing machines =>
      match scan stateMachineName machines with
      | Some arn => (quiet, Called VNull (VStr arn))
      | None => (quiet, Raised (VStr not_found_message))
      end
  | _ => (quiet, Raised VTypeError)
  end.

(** handler.js:40-47 *)
Definition startWorkflow (Records : list S3Record) : Step := fun stateMachineArn =>
  match Records with
  | eventData :: _ =>
      sdk (StartExecution stateMachineArn
             (stringify_input (s3_object_key eventData) (s3_bucket_name eventData)))
  | [] => (quiet, Raised VTypeError)
  end.

(** handler.js:48-50: the last element of the list of steps. *)
Definition reportOK : Step := fun _ => (say [Succeed (VStr "OK")], Returned).

(** handler.js:16-55 *)
Definition executeWorkflow (event : TriggerEvent) : Log Event :=
  match event with
  | WithRecords Records =>
      let stateMachineName := STEP_FUNCTION_NAME env in
      waterfall policy None
        [ listWorkflows;
          resolveWorkflow stateMachineName;
          startWorkflow Records;
          reportOK ]
  | WithoutRecords =>
      (* context.fail(message, event): the message is the error *)
      lmap Did (say [Fail (VStr no_records_message)])
  end.

(** handler.js:83-110: open the stream, subscribe the row handler,
    call [next(null)].  The rows arrive in later turns. *)
Definition ingest (event : FileEvent) : Step := fun _ =>
  (say [Request (GetObjectStream (bucketName event) (objectKey event))]
   +++ defer (map (fun data => Request (putItem_of_row data))
                (stream_rows w (bucketName event) (objectKey event))),
   Called VNull VUndefined).

(** handler.js:111-119 *)
Definition processFile_done (event : FileEvent) : Callback := fun err _ =>
  if truthy err then say [Fail (VStr "Execution failed")]
  else say [Succeed (VFile event)].

(** handler.js:68-120 *)
Definition processFile (event : FileEvent) : Log Event :=
  waterfall policy (Some (processFile_done event))
    [ (fun _ => sdk (WaitForObjectExists (bucketName event) (objectKey event)));
      ingest event ].

(** handler.js:161-172 *)
Definition moveFile_done (event : FileEvent) (newLocation : string) : Callback :=
  fun error _ =>
    if truthy error then say [Fail VUndefined]
    else say [Succeed (VMoved (bucketName event) (objectKey event) newLocation)].

(** handler.js:133-173 *)
Definition moveFile (event : FileEvent) : Log Event :=
  let objectKey := objectKey event in
  let bucketName := bucketName event in
  let newLocation := "processed/" +:+ objectKey in
  let targetBucket := TARGET_BUCKET env in
  waterfall policy (Some (moveFile_done event newLocation))
    [ (fun _ => sdk (CopyObject targetBucket newLocation
                       (bucketName +:+ "/" +:+ encodeURIComponent objectKey)));
      (fun _ => sdk (WaitForObjectExists targetBucket newLocation));
      (fun _ => sdk (DeleteObject bucketName objectKey)) ].

(** handler.js:209-216 *)
Definition sendEmail_done : Callback := fun err _ =>
  if truthy err then say [Fail VUndefined] else say [Succeed (VStr "OK")].

(** handler.js:185-217 *)
Definition sendEmail (event : FileEvent) : Log Event :=
  let objectKey := objectKey event in
  waterfall policy (Some sendEmail_done)
    [ (fun _ => sdk (SendEmail [DEST_EMAIL env]
                       ("Processed file " +:+ objectKey)
                       "File processed"
                       (DEST_EMAIL env))) ].
End Handlers.

(** ** Reading a log *)

(** The terminal signals of an invocation: the calls of [context.succeed]
    and [context.fail]. *)
Definition is_terminal (e : Event) : bool :=
  match e with
  | Did (Succeed _) | Did (Fail _) => true
  | _ => false
  end.

Definition terminals (l : list Event) : list Event := List.filter is_terminal l.

(** The SDK requests of an invocation, in the order they are issued. *)
Definition requests (l : list Event) : list Call :=
  flat_map (fun e => match e with Did (Request c) => [c] | _ => [] end) l.

Definition is_write (c : Call) : bool :=
  match c with PutItem _ _ => true | _ => false end.

(** Which of the requests above reach their service.  The aws-sdk
    (version 2) sends the request of a service method when the method is
    given a callback; without one the method only returns a request
    object, which is sent when [send()] or [createReadStream()] is called
    on it.  handler.js gives a callback to every method but two:
    [getObject], whose request object it turns into a stream
    (handler.js:87-90), and [putItem], whose request object it drops
    (handler.js:93-106). *)
Definition sent (c : Call) : bool :=
  match c with PutItem _ _ => false | _ => true end.

Definition sent_requests (l : list Event) : list Call :=
  List.filter sent (requests l).

Definition is_did (e : Event) : bool :=
  match e with Did _ => true | _ => false end.

(** ** The collaborators of the examples *)

Definition newline : ascii := "010"%char.

Fixpoint split_at (sep : ascii) (s : string) : list string :=
  match s with
  | EmptyString => [""]
  | String c rest =>
      if Ascii.eqb c sep then "" :: split_at sep rest
      else match split_at sep rest with
           | field :: more => String c field :: more
           | [] => [String c ""]
           end
  end.

(** Modelled from the spec: the row decoder behind [csv.fromStream] (the
    [fast-csv] package is not among the sources).  A row is decoded from
    one line of the delimited stream; its fields are the pieces between
    the commas, by position.  A newline at the very end closes the last
    line. *)
Definition csv_rows (text : string) : list (list string) :=
  let pieces := split_at newline text in
  map (split_at ","%char)
      (match rev pieces with
       | "" :: earlier => rev earlier
       | _ => pieces
       end).

(** Modelled from the spec: the object store behind [copyObject] and
    [deleteObject] (section 6: copy, delete, existence of a bucket and
    key).  An accepted copy makes the destination exist, an accepted
    delete removes the object, nothing else changes the store. *)
Definition store_step (w : World) (s : gset (string * string)) (c : Call)
  : gset (string * string) :=
  match c, respond w c with
  | CopyObject Bucket Key _, Success _ => {[ (Bucket, Key) ]} ∪ s
  | DeleteObject Bucket Key, Success _ => s ∖ {[ (Bucket, Key) ]}
  | _, _ => s
  end.

Definition store_after (w : World) (s : gset (string * string)) (l : list Event)
  : gset (string * string) :=
  fold_left (store_step w) (requests l) s.

(** A world in which every request is accepted, the listing holds the
    workflows [X] and [Y], and the object holds the two rows of the
    example. *)
Definition two_rows : string :=
  "s1,100,3.5" +:+ String newline ("s2,200,4.1" +:+ String newline "").

Definition sample_world : World :=
  {| respond := fun c =>
       match c with
       | ListStateMachines =>
           Success (VListing [ {| name := "X"; stateMachineArn := "A1" |};
                               {| name := "Y"; stateMachineArn := "A2" |} ])
       | _ => Success VResponse
       end;
     stream_rows := fun _ _ => csv_rows two_rows |}.

(** The same world with an existence wait that fails. *)
Definition timeout_error : AwsError :=
  {| code := "ResourceNotReady"; message := "Resource is not in the state objectExists" |}.

Definition waitless_world : World :=
  {| respond := fun c =>
       match c with
       | WaitForObjectExists _ _ => Failure timeout_error
       | _ => respond sample_world c
       end;
     stream_rows := stream_rows sample_world |}.

(** A world whose workflow engine answers nothing but errors. *)
Definition engine_error : AwsError :=
  {| code := "AccessDeniedException"; message := "not authorized" |}.

Definition failing_world : World :=
  {| respond := fun _ => Failure engine_error;
     stream_rows := fun _ _ => [] |}.

Definition sample_env (workflow : string) : Env :=
  {| STEP_FUNCTION_NAME := workflow; TARGET_BUCKET := "dst"; DEST_EMAIL := "a@b.com" |}.

Definition sample_file : FileEvent := {| bucketName := "src"; objectKey := "f.csv" |}.

Definition sample_trigger : TriggerEvent :=
  WithRecords [ {| s3_bucket_name := "b"; s3_object_key := "k.csv" |} ].

(** The sample world with a store that refuses to delete. *)
Definition delete_error : AwsError :=
  {| code := "AccessDenied"; message := "Access Denied" |}.

Definition undeletable_world : World :=
  {| respond := fun c =>
       match c with
       | DeleteObject _ _ => Failure delete_error
       | _ => respond sample_world c
       end;
     stream_rows := stream_rows sample_world |}.

(** What a run shows of an exception thrown by a step when the handler
    gave the executor no final callback. *)
Definition thrown (policy : ThrowPolicy) (exn : Value) : Event :=
  match policy with
  | Propagate => Uncaught exn
  | RouteToCallback => Completed exn VUndefined
  end.

(** ** Reading back what the handlers write *)

(** One character of the key, as [encodeURIComponent] writes it. *)
Definition encode_char (c : ascii) : string :=
  if uri_unreserved c then String c "" else percent_encode c.

(** Whether a request starts an execution. *)
Definition is_start (c : Call) : bool :=
  match c with StartExecution _ _ => true | _ => false end.

(** The readers below are the receiving side of the two texts that
    handler.js builds: the copy source read by the object store and the
    execution input read by the workflow engine.  They serve to state that
    nothing of the key or of the bucket name is lost in these texts. *)

Definition hex_value (c : ascii) : option nat :=
  let n := nat_of_ascii c in
  if ((48 <=? n)%nat && (n <=? 57)%nat) then Some (n - 48)
  else if ((65 <=? n)%nat && (n <=? 70)%nat) then Some (n - 55)
  else if ((97 <=? n)%nat && (n <=? 102)%nat) then Some (n - 87)
  else None.

(** Percent decoding: [%XX] is the byte [XX], any other character is
    itself. *)
Fixpoint percent_decode (s : string) : option string :=
  match s with
  | EmptyString => Some ""
  | String c rest =>
      if Ascii.eqb c "%"%char then
        match rest with
        | String h (String l rest') =>
            match hex_value h, hex_value l, percent_decode rest' with
            | Some a, Some b, Some t => Some (String (ascii_of_nat (16 * a + b)) t)
            | _, _, _ => None
            end
        | _ => None
        end
      else option_map (String c) (percent_decode rest)
  end.

Definition keep (c : ascii) (r : option (string * string)) : option (string * string) :=
  match r with
  | Some (s, rest) => Some (String c s, rest)
  | None => None
  end.

Definition simple_escape (e : ascii) : option ascii :=
  if Ascii.eqb e dquote then Some dquote
  else if Ascii.eqb e backslash then Some backslash
  else if Ascii.eqb e "/"%char then Some "/"%char
  else if Ascii.eqb e "b"%char then Some "008"%char
  else if Ascii.eqb e "t"%char then Some "009"%char
  else if Ascii.eqb e "n"%char then Some "010"%char
  else if Ascii.eqb e "f"%char then Some "012"%char
  else if Ascii.eqb e "r"%char then Some "013"%char
  else None.

(** Reading a JSON string from just after its opening quote: the text of
    the string and what follows its closing quote.  As JSON asks, a
    control character that is not escaped is refused, and so is an escape
    that JSON does not know. *)
Fixpoint json_read (s : string) : option (string * string) :=
  match s with
  | EmptyString => None
  | String c rest =>
      if Ascii.eqb c dquote then Some ("", rest)
      else if Ascii.eqb c backslash then
        match rest with
        | String e rest' =>
            if Ascii.eqb e "u"%char then
              match rest' with
              | String h1 (String h2 (String h3 (String h4 rest''))) =>
                  match hex_value h1, hex_value h2, hex_value h3, hex_value h4 with
                  | Some 0, Some 0, Some a, Some b =>
                      keep (ascii_of_nat (16 * a + b)) (json_read rest'')
                  | _, _, _, _ => None
                  end
              | _ => None
              end
            else
              match simple_escape e with
              | Some x => keep x (json_read rest')
              | None => None
              end
        | EmptyString => None
        end
      else if (nat_of_ascii c <? 32)%nat then None
      else keep c (json_read rest)
  end.

Fixpoint strip_prefix (p s : string) : option string :=
  match p, s with
  | EmptyString, _ => Some s
  | String a p', String b s' => if Ascii.eqb a b then strip_prefix p' s' else None
  | String _ _, EmptyString => None
  end.

(** Reading the input of an execution: the object key and the bucket
    name. *)
Definition read_input (text : string) : option (string * string) :=
  match strip_prefix ("{" +:+ quoted "objectKey" +:+ ":" +:+ String dquote "") text with
  | Some t1 =>
      match json_read t1 with
      | Some (key, t2) =>
          match strip_prefix ("," +:+ quoted "bucketName" +:+ ":" +:+ String dquote "") t2 with
          | Some t3 =>
              match json_read t3 with
              | Some (bucket, closing) =>
                  if String.eqb closing "}" then Some (key, bucket) else None
              | None => None
              end
          | None => None
          end
      | None => None
      end
  | None => None
  end.

(** ** The object store with its contents *)

Fixpoint cut_at (sep : ascii) (s : string) : option (string * string) :=
  match s with
  | EmptyString => None
  | String c rest =>
      if Ascii.eqb c sep then Some ("", rest)
      else match cut_at sep rest with
           | Some (before, after) => Some (String c before, after)
           | None => None
           end
  end.

(** The object a copy source names: the bucket before the first slash and
    the key after it, percent-decoded. *)
Definition read_copy_source (CopySource : string) : option (string * string) :=
  match cut_at "/"%char CopySource with
  | Some (bucket, encoded) =>
      match percent_decode encoded with
      | Some key => Some (bucket, key)
      | None => None
      end
  | None => None
  end.

(** Modelled from the spec: the object store of section 6 with the
    contents of its objects (the store itself is not among the sources).
    An accepted copy gives the destination the contents of the object that
    the copy source names, an accepted delete removes the object, nothing
    else changes the store. *)
Definition objects_step (w : World) (objects : gmap (string * string) string)
  (c : Call) : gmap (string * string) string :=
  match c, respond w c with
  | CopyObject Bucket Key CopySource, Success _ =>
      match read_copy_source CopySource with
      | Some from =>
          match objects !! from with
          | Some body => <[ (Bucket, Key) := body ]> objects
          | None => objects
          end
      | None => objects
      end
  | DeleteObject Bucket Key, Success _ => delete (Bucket, Key) objects
  | _, _ => objects
  end.

Definition objects_after (w : World) (objects : gmap (string * string) string)
  (l : list Event) : gmap (string * string) string :=
  fold_left (objects_step w) (requests l) objects.

(** * Properties *)

(** ** Runs on the sample collaborators *)

Example executeWorkflow_sample_run :
  trace (executeWorkflow Propagate sample_world (sample_env "X") sample_trigger)
  = [ Invoked 0; Did (Request ListStateMachines);
      Fired 0 VNull
        (VListing [ {| name := "X"; stateMachineArn := "A1" |};
                    {| name := "Y"; stateMachineArn := "A2" |} ]);
      Invoked 1; Fired 1 VNull (VStr "A1");
      Invoked 2;
      Did (Request (StartExecution (VStr "A1") (stringify_input "k.csv" "b")));
      Fired 2 VNull VResponse;
      Invoked 3; Did (Succeed (VStr "OK")) ].
Proof. reflexivity. Qed.

Example moveFile_wait_fails_run :
  trace (moveFile Propagate waitless_world (sample_env "X") sample_file)
  = [ Invoked 0;
      Did (Request (CopyObject "dst" "processed/f.csv" "src/f.csv"));
      Fired 0 VNull VResponse;
      Invoked 1;
      Did (Request (WaitForObjectExists "dst" "processed/f.csv"));
      Fired 1 (VError timeout_error) VNull;
      Completed (VError timeout_error) VNull;
      Did (Fail VUndefined) ].
Proof. reflexivity. Qed.

Example processFile_sample_run :
  trace (processFile Propagate sample_world sample_file)
  = [ Invoked 0; Did (Request (WaitForObjectExists "src" "f.csv"));
      Fired 0 VNull VResponse;
      Invoked 1; Did (Request (GetObjectStream "src" "f.csv"));
      Fired 1 VNull VUndefined;
      Completed VNull VUndefined; Did (Succeed (VFile sample_file));
      Did (Request (putItem_of_row ["s1"; "100"; "3.5"]));
      Did (Request (putItem_of_row ["s2"; "200"; "4.1"])) ].
Proof. reflexivity. Qed.

Example encodeURIComponent_sample :
  encodeURIComponent "in box/f 1.csv" = "in%20box%2Ff%201.csv".
Proof. reflexivity. Qed.

(** ** Logs *)

(** Walk a concrete log to the place of an event: [H] says that the log is
    [pre ++ x :: post]. *)
Ltac locate H pre :=
  repeat (destruct pre as [|? pre]; simpl in H;
          [ first [discriminate H | idtac]
          | first [discriminate H | injection H as <- H] ]).

Lemma not_in_did (l : list Effect) (x : Event) :
  is_did x = false -> ~ In x (map Did l).
Proof.
  intros Hx Hin. apply in_map_iff in Hin as (e & <- & _). discriminate.
Qed.

(** A mark of the executor found in [map Did l ++ t] lies in [t]. *)
Lemma split_after_did (l : list Effect) (t pre post : list Event) (x : Event) :
  is_did x = false ->
  map Did l ++ t = pre ++ x :: post ->
  exists pre', pre = map Did l ++ pre' /\ t = pre' ++ x :: post.
Proof.
  intros Hx. revert pre.
  induction l as [|e l IH]; intros pre H; simpl in *.
  - exists pre. auto.
  - destruct pre as [|p pre]; simpl in H.
    + injection H as H _. subst x. discriminate.
    + injection H as -> H. destruct (IH _ H) as (pre' & -> & ->).
      exists pre'. auto.
Qed.

(** A mark of the executor found in the whole log lies in the part that
    happens during the run, when the later part holds effects only. *)
Lemma split_before_later (run rest pre post : list Event) (x : Event) :
  is_did x = false ->
  (forall e, In e rest -> is_did e = true) ->
  run ++ rest = pre ++ x :: post ->
  exists post', run = pre ++ x :: post' /\ post = post' ++ rest.
Proof.
  intros Hx Hrest. revert pre.
  induction run as [|a run IH]; intros pre H; simpl in H.
  - assert (Hin : In x rest) by (rewrite H; apply in_elt).
    apply Hrest in Hin. congruence.
  - destruct pre as [|p pre]; simpl in H.
    + injection H as -> <-. exists run. auto.
    + injection H as -> H. destruct (IH _ H) as (post' & -> & ->).
      exists post'. auto.
Qed.

(** ** The stage executor *)

Section WaterfallFacts.
Variable policy : ThrowPolicy.
Variable callback : option Callback.

Lemma now_complete err res :
  exists l, now (complete callback err res) = Completed err res :: map Did l.
Proof.
  unfold complete. destruct callback as [cb|]; simpl.
  - exists (now (cb err res)). reflexivity.
  - exists []. reflexivity.
Qed.

Lemma complete_no_mark err res pre x post :
  now (complete callback err res) = pre ++ x :: post ->
  match x with Invoked _ | Fired _ _ _ => False | _ => True end.
Proof.
  destruct (now_complete err res) as (l & ->).
  destruct x; auto; intros H.
  - destruct pre; [discriminate|]. injection H as _ H.
    apply (not_in_did l (Invoked i)); [reflexivity|].
    rewrite H. apply in_elt.
  - destruct pre; [discriminate|]. injection H as _ H.
    apply (not_in_did l (Fired i err0 res0)); [reflexivity|].
    rewrite H. apply in_elt.
Qed.

Lemma later_complete err res e :
  In e (later (complete callback err res)) -> is_did e = true.
Proof.
  unfold complete. destruct callback as [cb|]; simpl; [|tauto].
  intros H. apply in_map_iff in H as (x & <- & _). reflexivity.
Qed.

(** Everything deferred to later turns is an effect of a step. *)
Lemma later_nextTask tasks : forall k arg e,
  In e (later (nextTask policy callback k tasks arg)) -> is_did e = true.
Proof.
  induction tasks as [|task rest IH]; intros k arg e; simpl.
  - apply later_complete.
  - destruct (task arg) as [done outcome]. simpl.
    rewrite in_app_iff. intros [H|H].
    { apply in_map_iff in H as (x & <- & _). reflexivity. }
    destruct outcome as [err res|exn|]; simpl in H.
    + destruct (truthy err); [apply later_complete in H|apply IH in H]; auto.
    + destruct policy; simpl in H; [tauto|]. apply later_complete in H; auto.
    + tauto.
Qed.

(** Where a mark of the executor stands in the run of [nextTask]. *)
Lemma nextTask_marks tasks : forall k arg pre x post,
  now (nextTask policy callback k tasks arg) = pre ++ x :: post ->
  match x with
  | Invoked j =>
      (j = k /\ pre = []) \/
      (exists i err res, j = S i /\ In (Fired i err res) pre /\ truthy err = false)
  | Fired j err res =>
      k <= j < k + length tasks /\
      if truthy err then post = now (complete callback err res)
      else post = now (nextTask policy callback (S j) (drop (S j - k) tasks) res)
  | _ => True
  end.
Proof.
  induction tasks as [|task rest IH]; intros k arg pre x post; simpl.
  - intros H. apply complete_no_mark in H. destruct x; tauto.
  - destruct (task arg) as [done outcome]. simpl.
    destruct pre as [|p pre]; simpl.
    { intros H. injection H as <- _. left. auto. }
    intros H. injection H as <- H.
    destruct x as [j|j e r| | |]; auto.
    + apply split_after_did in H as (pre' & -> & H); [|reflexivity].
      right.
      destruct outcome as [err res|exn|]; simpl in H.
      * destruct pre' as [|p pre']; [discriminate|]. injection H as <- H.
        destruct (truthy err) eqn:Ht.
        { apply complete_no_mark in H. tauto. }
        apply IH in H as [[-> ->]|(i & e & r & -> & Hin & Hf)].
        { exists k, err, res. split; [auto|]. split; [|auto].
          right. apply in_or_app. right. left. auto. }
        { exists i, e, r. split; [auto|]. split; [|auto].
          right. apply in_or_app. right. right. auto. }
      * destruct policy.
        { destruct pre' as [|? [|? ?]]; discriminate. }
        { apply complete_no_mark in H. tauto. }
      * destruct pre'; discriminate.
    + apply split_after_did in H as (pre' & -> & H); [|reflexivity].
      destruct outcome as [err res|exn|]; simpl in H.
      * destruct pre' as [|p pre']; simpl in H.
        { injection H as <- <- <- <-. split; [lia|].
          replace (S k - k) with 1 by lia. simpl.
          destruct (truthy err); [reflexivity|]. rewrite drop_0. reflexivity. }
        injection H as <- H.
        destruct (truthy err) eqn:Ht.
        { apply complete_no_mark in H. tauto. }
        apply IH in H as [Hlt Hpost]. split; [lia|].
        destruct (truthy e); auto.
        rewrite Hpost.
        replace (S j - k) with (S (S j - S k)) by lia. reflexivity.
      * destruct policy.
        { destruct pre' as [|? [|? ?]]; discriminate. }
        { apply complete_no_mark in H. tauto. }
      * destruct pre'; discriminate.
Qed.

(** What the executor does when it completes, written out. *)
Lemma now_complete_eq err res :
  now (complete callback err res)
  = Completed err res ::
    match callback with
    | Some cb => map Did (now (cb err res))
    | None => []
    end.
Proof. unfold complete. destruct callback; reflexivity. Qed.

(** Where the invocation of a step stands in the run of [nextTask]: which
    step it is, on which argument it runs, and what follows. *)
Lemma nextTask_invoked tasks : forall k arg pre j post,
  now (nextTask policy callback k tasks arg) = pre ++ Invoked j :: post ->
  k <= j /\
  exists task a,
    tasks !! (j - k) = Some task /\
    ((j = k /\ pre = [] /\ a = arg) \/
     (exists i err pre',
         j = S i /\ pre = pre' ++ [Fired i err a] /\ truthy err = false)) /\
    post = map Did (now (fst (task a))) ++
           match snd (task a) with
           | Called err res =>
               Fired j err res ::
               (if truthy err then now (complete callback err res)
                else now (nextTask policy callback (S j)
                            (drop (S (j - k)) tasks) res))
           | Raised exn =>
               match policy with
               | Propagate => [Uncaught exn]
               | RouteToCallback => now (complete callback exn VUndefined)
               end
           | Returned => []
           end.
Proof.
  induction tasks as [|task rest IH]; intros k arg pre j post; simpl.
  - intros H. apply complete_no_mark in H. destruct H.
  - destruct (task arg) as [done outcome] eqn:Htask. simpl.
    destruct pre as [|p pre]; simpl.
    + intros H. injection H as <- <-. split; [lia|].
      exists task, arg. rewrite Nat.sub_diag, Htask. simpl.
      split; [reflexivity|]. split; [left; auto|].
      f_equal. destruct outcome as [err res|exn|]; simpl.
      * destruct (truthy err); reflexivity.
      * destruct policy; reflexivity.
      * reflexivity.
    + intros H. injection H as <- H.
      apply split_after_did in H as (pre' & -> & H); [|reflexivity].
      destruct outcome as [err res|exn|]; simpl in H.
      * destruct pre' as [|p pre']; [discriminate|]. injection H as <- H.
        destruct (truthy err) eqn:Ht.
        { apply complete_no_mark in H. destruct H. }
        apply IH in H as (Hle & task' & a & Hlook & Horigin & Hpost).
        split; [lia|]. exists task', a.
        replace (j - k) with (S (j - S k)) by lia.
        split; [exact Hlook|]. split; [|exact Hpost].
        right. destruct Horigin as [(-> & -> & ->)|(i & e & pre'' & -> & -> & He)].
        { exists k, err, (Invoked k :: map Did (now done)).
          split; [reflexivity|]. split; [|exact Ht]. reflexivity. }
        { exists i, e, (Invoked k :: map Did (now done) ++ Fired k err res :: pre'').
          split; [reflexivity|]. split; [|exact He].
          simpl. rewrite <- app_assoc. reflexivity. }
      * destruct policy.
        { destruct pre' as [|? [|? ?]]; discriminate. }
        { apply complete_no_mark in H. destruct H. }
      * destruct pre'; discriminate.
Qed.

Lemma later_waterfall tasks e :
  In e (later (waterfall policy callback tasks)) -> is_did e = true.
Proof.
  destruct tasks; [apply later_complete|apply later_nextTask].
Qed.

Lemma waterfall_marks tasks pre x post :
  now (waterfall policy callback tasks) = pre ++ x :: post ->
  match x with
  | Invoked j =>
      (j = 0 /\ pre = []) \/
      (exists i err res, j = S i /\ In (Fired i err res) pre /\ truthy err = false)
  | Fired j err res =>
      j < length tasks /\
      if truthy err then post = now (complete callback err res)
      else post = now (nextTask policy callback (S j) (drop (S j) tasks) res)
  | _ => True
  end.
Proof.
  destruct tasks as [|t ts].
  - intros H. apply complete_no_mark in H. destruct x; tauto.
  - intros H. apply (nextTask_marks (t :: ts) 0 VUndefined) in H.
    destruct x; auto.
    destruct H as [Hj H]. split; [lia|].
    replace (S i - 0) with (S i) in H by lia. exact H.
Qed.
End WaterfallFacts.

(** C1.  In every run of the stage executor, whatever the steps, the final
    callback and the treatment of exceptions.  (1) A step other than the
    first is invoked only after the callback of the step before it has
    fired without an error.  (2) Once the callback of a step has fired with
    an error, no later step is invoked and the next thing that happens is
    the final callback, called with that very error: the run goes on with
    what the final callback does on it, and with nothing else.  (3) When
    the callback of a step has fired without an error and a step follows in
    the list, invoking that step is the next thing that happens.  (4) The
    step invoked as number [i] is the [i]-th of the list; it runs on no
    argument when it is the first and else on the result that the callback
    of the step before it has just fired with; what the step does follows,
    and then its own callback fires with the outcome of the step (or the
    exception it throws escapes or goes to the final callback, or nothing
    more happens when it never calls back).  (5) When the callback of the
    last step has fired without an error, the final callback is called with
    no error and the last result.  (6) A list that is not empty starts with
    the invocation of its first step. *)
Theorem waterfall_runs_in_order
  (policy : ThrowPolicy) (callback : option Callback) (tasks : list Step) :
  let log := waterfall policy callback tasks in
  let final (err res : Value) : list Event :=
    Completed err res ::
    match callback with
    | Some cb => map Did (now (cb err res))
    | None => []
    end in
  (forall i pre post,
      trace log = pre ++ Invoked (S i) :: post ->
      exists err res, In (Fired i err res) pre /\ truthy err = false)
  /\
  (forall i err res pre post,
      trace log = pre ++ Fired i err res :: post ->
      truthy err = true ->
      (forall j, ~ In (Invoked j) post) /\
      post = final err res ++ later log)
  /\
  (forall i err res pre post,
      trace log = pre ++ Fired i err res :: post ->
      truthy err = false ->
      S i < length tasks ->
      exists post', post = Invoked (S i) :: post')
  /\
  (forall i pre post,
      trace log = pre ++ Invoked i :: post ->
      exists task arg,
        tasks !! i = Some task /\
        ((i = 0 /\ pre = [] /\ arg = VUndefined) \/
         (exists j err pre',
             i = S j /\ pre = pre' ++ [Fired j err arg] /\ truthy err = false)) /\
        exists post',
          post = map Did (now (fst (task arg))) ++ post' /\
          match snd (task arg) with
          | Called err res => exists post'', post' = Fired i err res :: post''
          | Raised exn =>
              post' = match policy with
                      | Propagate => [Uncaught exn]
                      | RouteToCallback => final exn VUndefined
                      end ++ later log
          | Returned => post' = later log
          end)
  /\
  (forall i err res pre post,
      trace log = pre ++ Fired i err res :: post ->
      truthy err = false ->
      S i = length tasks ->
      post = final VNull res ++ later log)
  /\
  (tasks <> [] -> exists post, trace log = Invoked 0 :: post).
Proof.
  intros log final. unfold trace.
  pose proof (later_waterfall policy callback tasks) as Hlater.
  fold log in Hlater.
  assert (Hfinal : forall err res, now (complete callback err res) = final err res).
  { intros err res. apply now_complete_eq. }
  split; [|split; [|split; [|split; [|split]]]].
  - intros i pre post H.
    apply split_before_later in H as (post' & H & _); [|reflexivity|exact Hlater].
    apply waterfall_marks in H as [[Hj _]|(i' & err & res & Hj & Hin & Hf)].
    + discriminate.
    + injection Hj as ->. eauto.
  - intros i err res pre post H Ht.
    apply split_before_later in H as (post' & H & ->); [|reflexivity|exact Hlater].
    apply waterfall_marks in H as [_ H]. rewrite Ht in H. subst post'.
    split; [|rewrite Hfinal; reflexivity].
    intros j Hin. apply in_app_iff in Hin as [Hin|Hin].
    + destruct (now_complete callback err res) as (l & Hl).
      rewrite Hl in Hin. destruct Hin as [Hin|Hin]; [discriminate|].
      revert Hin. apply not_in_did. reflexivity.
    + apply Hlater in Hin. discriminate.
  - intros i err res pre post H Hf Hlen.
    apply split_before_later in H as (post' & H & ->); [|reflexivity|exact Hlater].
    apply waterfall_marks in H as [_ H]. rewrite Hf in H. subst post'.
    destruct (drop (S i) tasks) as [|t ts] eqn:Hd.
    + apply (f_equal (@length Step)) in Hd. rewrite length_drop in Hd.
      simpl in Hd. lia.
    + simpl. destruct (t res) as [done outcome]. simpl. eauto.
  - intros i pre post H.
    apply split_before_later in H as (post0 & H & ->); [|reflexivity|exact Hlater].
    destruct tasks as [|t ts].
    { apply complete_no_mark in H. destruct H. }
    apply (nextTask_invoked policy callback (t :: ts) 0 VUndefined) in H
      as (_ & task & arg & Hlook & Horigin & Hpost).
    rewrite Nat.sub_0_r in Hlook. exists task, arg.
    split; [exact Hlook|]. split; [exact Horigin|].
    rewrite Hpost, <- app_assoc. eexists. split; [reflexivity|].
    destruct (snd (task arg)) as [err res|exn|].
    + simpl. eauto.
    + destruct policy; [reflexivity|]. rewrite Hfinal. reflexivity.
    + reflexivity.
  - intros i err res pre post H Hf Hlen.
    apply split_before_later in H as (post' & H & ->); [|reflexivity|exact Hlater].
    apply waterfall_marks in H as [_ H]. rewrite Hf in H. subst post'.
    rewrite Hlen, drop_all. cbn [nextTask]. rewrite Hfinal. reflexivity.
  - intros Hne. subst log. destruct tasks as [|t ts]; [congruence|].
    unfold waterfall. cbn [nextTask]. destruct (t VUndefined) as [done outcome].
    simpl. eauto.
Qed.

(** ** The workflow dispatcher *)

Lemma scan_first_match (wanted : string) (machines : list StateMachine) (arn : string) :
  scan wanted machines = Some arn <->
  exists before item after,
    machines = before ++ item :: after /\
    name item = wanted /\ stateMachineArn item = arn /\
    forall other, In other before -> name other <> wanted.
Proof.
  induction machines as [|m ms IH]; simpl.
  - split; [discriminate|]. intros (before & item & after & H & _).
    destruct before; discriminate.
  - destruct (String.eqb_spec (name m) wanted) as [Heq|Hne].
    + split.
      * intros [= <-]. exists [], m, ms. simpl. tauto.
      * intros (before & item & after & H & Hn & Ha & Hb).
        destruct before as [|b before]; simpl in H.
        { injection H as -> _. congruence. }
        { injection H as -> _. exfalso. apply (Hb b); simpl; auto. }
    + rewrite IH. split.
      * intros (before & item & after & -> & Hn & Ha & Hb).
        exists (m :: before), item, after. simpl. repeat split; auto.
        intros other [<-|Hin]; auto.
      * intros (before & item & after & H & Hn & Ha & Hb).
        destruct before as [|b before]; simpl in H.
        { injection H as -> _. congruence. }
        { injection H as -> ->. exists before, item, after.
          repeat split; auto. intros other Hin. apply Hb. simpl. auto. }
Qed.

Lemma scan_no_match (wanted : string) (machines : list StateMachine) :
  scan wanted machines = None <->
  forall item, In item machines -> name item <> wanted.
Proof.
  induction machines as [|m ms IH]; simpl.
  - split; [tauto|reflexivity].
  - destruct (String.eqb_spec (name m) wanted) as [Heq|Hne].
    + split; [discriminate|]. intros H. exfalso. apply (H m); auto.
    + rewrite IH. split.
      * intros H item [<-|Hin]; auto.
      * intros H item Hin. apply H. auto.
Qed.

(** Where a [startExecution] request stands in a run of
    [executeWorkflow], and what it carries. *)
Lemma executeWorkflow_start policy w env Records arn input pre post :
  trace (executeWorkflow policy w env (WithRecords Records))
    = pre ++ Did (Request (StartExecution arn input)) :: post ->
  exists machines a r rest,
    respond w ListStateMachines = Success (VListing machines) /\
    scan (STEP_FUNCTION_NAME env) machines = Some a /\
    arn = VStr a /\
    Records = r :: rest /\
    input = stringify_input (s3_object_key r) (s3_bucket_name r) /\
    exists pre' pre'', pre = pre' ++ Fired 1 VNull (VStr a) :: pre''.
Proof.
  intros H.
  unfold executeWorkflow, waterfall, nextTask, listWorkflows,
    resolveWorkflow, startWorkflow, reportOK, sdk, trace in H.
  destruct (respond w ListStateMachines) as [e|data] eqn:Hlist.
  { simpl in H. locate H pre. }
  destruct data as [| | | | |machines| | |];
    try solve [destruct policy; simpl in H; locate H pre].
  destruct (scan (STEP_FUNCTION_NAME env) machines) as [a|] eqn:Hscan;
    [|destruct policy; simpl in H; locate H pre].
  destruct Records as [|r rest];
    [destruct policy; simpl in H; locate H pre|].
  exists machines, a, r, rest.
  split; [reflexivity|]. split; [exact Hscan|].
  destruct (respond w (StartExecution (VStr a)
      (stringify_input (s3_object_key r) (s3_bucket_name r)))) as [e|d];
    simpl in H; locate H pre.
  + injection H as <- <- _. repeat split.
    eexists [_; _; _; _], [_]. reflexivity.
  + injection H as <- <- _. repeat split.
    eexists [_; _; _; _], [_]. reflexivity.
Qed.

(** C2.  The lookup of handler.js:30-38 returns the ARN of the first state
    machine of the listing whose name is exactly the wanted one ([A1] for
    [X] over [X/A1, Y/A2]); when no name matches, the step throws the lookup
    failure and the listing is the only request of the invocation, so
    [startExecution] is never called; and whenever [startExecution] is
    called, the callback of the lookup step has fired before, with the ARN
    the execution is started on.  When a name matches, the lookup step does
    nothing but call back, without an error, with the ARN found; and on an
    event with a first record the run is then: the listing, its callback,
    the lookup, its callback with that ARN, and only then the start step
    with its [startExecution] request on that ARN. *)
Theorem resolveWorkflow_first_match :
  scan "X" [ {| name := "X"; stateMachineArn := "A1" |};
             {| name := "Y"; stateMachineArn := "A2" |} ] = Some "A1"
  /\
  (forall wanted machines arn,
      scan wanted machines = Some arn <->
      exists before item after,
        machines = before ++ item :: after /\
        name item = wanted /\ stateMachineArn item = arn /\
        forall other, In other before -> name other <> wanted)
  /\
  (forall policy w env Records machines,
      respond w ListStateMachines = Success (VListing machines) ->
      (forall item, In item machines -> name item <> STEP_FUNCTION_NAME env) ->
      snd (resolveWorkflow (STEP_FUNCTION_NAME env) (VListing machines))
        = Raised (VStr not_found_message) /\
      requests (trace (executeWorkflow policy w env (WithRecords Records)))
        = [ListStateMachines])
  /\
  (forall policy w env Records arn input pre post,
      trace (executeWorkflow policy w env (WithRecords Records))
        = pre ++ Did (Request (StartExecution arn input)) :: post ->
      exists machines a,
        respond w ListStateMachines = Success (VListing machines) /\
        scan (STEP_FUNCTION_NAME env) machines = Some a /\
        arn = VStr a /\
        exists pre' pre'',
          pre = pre' ++ Fired 1 VNull (VStr a) :: pre'')
  /\
  (forall wanted machines arn,
      scan wanted machines = Some arn ->
      resolveWorkflow wanted (VListing machines)
      = (quiet, Called VNull (VStr arn)))
  /\
  (forall policy w env r rest machines arn,
      respond w ListStateMachines = Success (VListing machines) ->
      scan (STEP_FUNCTION_NAME env) machines = Some arn ->
      exists post,
        trace (executeWorkflow policy w env (WithRecords (r :: rest)))
        = [ Invoked 0; Did (Request ListStateMachines);
            Fired 0 VNull (VListing machines);
            Invoked 1; Fired 1 VNull (VStr arn);
            Invoked 2;
            Did (Request (StartExecution (VStr arn)
                            (stringify_input (s3_object_key r) (s3_bucket_name r)))) ]
          ++ post).
Proof.
  split; [reflexivity|]. split; [apply scan_first_match|].
  split; [|split; [|split]].
  - intros policy w env Records machines Hlist Hnone.
    apply scan_no_match in Hnone.
    unfold resolveWorkflow. rewrite Hnone. split; [reflexivity|].
    unfold executeWorkflow, waterfall, nextTask, listWorkflows, sdk,
      resolveWorkflow, trace.
    rewrite Hlist. simpl. rewrite Hnone. destruct policy; reflexivity.
  - intros policy w env Records arn input pre post H.
    apply executeWorkflow_start in H
      as (machines & a & r & rest & Hlist & Hscan & Harn & _ & _ & Hpre).
    exists machines, a. auto.
  - intros wanted machines arn Hscan. unfold resolveWorkflow.
    rewrite Hscan. reflexivity.
  - intros policy w env r rest machines arn Hlist Hscan.
    unfold executeWorkflow, waterfall, nextTask, listWorkflows,
      resolveWorkflow, startWorkflow, reportOK, sdk, trace.
    rewrite Hlist. simpl. rewrite Hscan. simpl.
    destruct (respond w (StartExecution _ _)); eexists; reflexivity.
Qed.

Lemma json_escape_plain (s : string) : json_plain s = true -> json_escape s = s.
Proof.
  induction s as [|c s IH]; simpl; [reflexivity|].
  intros H. apply andb_prop in H as [Hc Hs]. rewrite (IH Hs).
  unfold json_plain_char in Hc.
  apply andb_prop in Hc as [Hc H32]. apply andb_prop in Hc as [Hq Hb].
  apply Nat.leb_le in H32.
  unfold json_escape_char.
  destruct (Ascii.eqb c dquote); [discriminate|].
  destruct (Ascii.eqb c backslash); [discriminate|].
  repeat match goal with
         | |- context [(?n =? ?k)%nat] =>
             destruct (Nat.eqb_spec n k); [lia|]
         end.
  destruct (Nat.ltb_spec (nat_of_ascii c) 32); [lia|]. reflexivity.
Qed.

Lemma json_string_plain (s : string) : json_plain s = true -> json_string s = quoted s.
Proof. intros H. unfold json_string, quoted. rewrite json_escape_plain; auto. Qed.

(** C6.  For an event with [Records], a [startExecution] request carries
    as input the JSON text of [{ objectKey, bucketName }] of the first
    record ([{"objectKey":"k.csv","bucketName":"b"}] for the bucket [b] and
    the key [k.csv]; the names between quotes unchanged whenever they hold
    no quote, backslash or control character); the records after the first
    change nothing of the run; and when the lookup succeeds the run issues
    the listing and then exactly this one [startExecution]. *)
Theorem startWorkflow_input_first_record :
  stringify_input "k.csv" "b"
    = "{" +:+ quoted "objectKey" +:+ ":" +:+ quoted "k.csv" +:+ ","
          +:+ quoted "bucketName" +:+ ":" +:+ quoted "b" +:+ "}"
  /\
  (forall key bucket,
      json_plain key = true -> json_plain bucket = true ->
      stringify_input key bucket
        = "{" +:+ quoted "objectKey" +:+ ":" +:+ quoted key +:+ ","
              +:+ quoted "bucketName" +:+ ":" +:+ quoted bucket +:+ "}")
  /\
  (forall policy w env r rest arn input,
      In (Did (Request (StartExecution arn input)))
         (trace (executeWorkflow policy w env (WithRecords (r :: rest)))) ->
      input = stringify_input (s3_object_key r) (s3_bucket_name r))
  /\
  (forall policy w env r rest rest',
      executeWorkflow policy w env (WithRecords (r :: rest))
        = executeWorkflow policy w env (WithRecords (r :: rest')))
  /\
  (forall policy w env r rest machines a,
      respond w ListStateMachines = Success (VListing machines) ->
      scan (STEP_FUNCTION_NAME env) machines = Some a ->
      requests (trace (executeWorkflow policy w env (WithRecords (r :: rest))))
        = [ ListStateMachines;
            StartExecution (VStr a)
              (stringify_input (s3_object_key r) (s3_bucket_name r)) ]).
Proof.
  split; [reflexivity|]. split; [|split; [|split]].
  - intros key bucket Hk Hb. unfold stringify_input.
    rewrite (json_string_plain key Hk), (json_string_plain bucket Hb).
    reflexivity.
  - intros policy w env r rest arn input Hin.
    apply in_split in Hin as (pre & post & H).
    apply executeWorkflow_start in H
      as (machines & a & r' & rest' & _ & _ & _ & Hrec & Hinput & _).
    injection Hrec as <- <-. exact Hinput.
  - reflexivity.
  - intros policy w env r rest machines a Hlist Hscan.
    unfold executeWorkflow, waterfall, nextTask, listWorkflows,
      resolveWorkflow, startWorkflow, reportOK, sdk, trace.
    rewrite Hlist. simpl. rewrite Hscan. simpl.
    destruct (respond w (StartExecution _ _)); reflexivity.
Qed.

(** ** The streaming record ingester *)

Section ProcessFile.
Variable policy : ThrowPolicy.
Variable w : World.
Variable event : FileEvent.

Let wait := WaitForObjectExists (bucketName event) (objectKey event).
Let rows := stream_rows w (bucketName event) (objectKey event).

Lemma processFile_available d :
  respond w wait = Success d ->
  processFile policy w event
  = mkLog [ Invoked 0; Did (Request wait); Fired 0 VNull d;
            Invoked 1;
            Did (Request (GetObjectStream (bucketName event) (objectKey event)));
            Fired 1 VNull VUndefined;
            Completed VNull VUndefined; Did (Succeed (VFile event)) ]
          (map (fun data => Did (Request (putItem_of_row data))) rows).
Proof.
  intros H. unfold processFile, waterfall, nextTask, ingest, sdk.
  fold wait. rewrite H. unfold lapp, lmap, complete, processFile_done. simpl.
  rewrite map_map, app_nil_r. reflexivity.
Qed.

Lemma processFile_unavailable e :
  respond w wait = Failure e ->
  processFile policy w event
  = mkLog [ Invoked 0; Did (Request wait); Fired 0 (VError e) VNull;
            Completed (VError e) VNull; Did (Fail (VStr "Execution failed")) ]
          [].
Proof.
  intros H. unfold processFile, waterfall, nextTask, ingest, sdk.
  fold wait. rewrite H. reflexivity.
Qed.
End ProcessFile.

Lemma requests_app (a b : list Event) : requests (a ++ b) = requests a ++ requests b.
Proof. unfold requests. apply flat_map_app. Qed.

Lemma requests_rows (rows : list (list string)) :
  requests (map (fun data => Did (Request (putItem_of_row data))) rows)
  = map putItem_of_row rows.
Proof. induction rows as [|r rows IH]; simpl; [|rewrite IH]; reflexivity. Qed.

Lemma writes_rows (rows : list (list string)) :
  List.filter is_write (map putItem_of_row rows) = map putItem_of_row rows.
Proof. induction rows as [|r rows IH]; simpl; [|rewrite IH]; reflexivity. Qed.

Lemma terminals_rows (rows : list (list string)) :
  terminals (map (fun data => Did (Request (putItem_of_row data))) rows) = [].
Proof. induction rows as [|r rows IH]; simpl; auto. Qed.

(** C3.  When the object is available, the ingestion step of [processFile]
    calls its continuation with success right after the stream has been
    opened, and [processFile] reports success, all within the run and
    before any row is written: no write is requested during the run, every
    write happens in a later turn.  The success signal is the only terminal
    signal, and nothing of the invocation depends on how the table store
    answers the writes. *)
Theorem processFile_reports_before_rows
  (policy : ThrowPolicy) (w : World) (event : FileEvent) (d : Value) :
  respond w (WaitForObjectExists (bucketName event) (objectKey event)) = Success d ->
  let log := processFile policy w event in
  let rows := stream_rows w (bucketName event) (objectKey event) in
  (exists pre,
      now log = pre ++
        [ Did (Request (GetObjectStream (bucketName event) (objectKey event)));
          Fired 1 VNull VUndefined;
          Completed VNull VUndefined;
          Did (Succeed (VFile event)) ])
  /\ (forall c, In (Did (Request c)) (now log) -> is_write c = false)
  /\ later log = map (fun data => Did (Request (putItem_of_row data))) rows
  /\ terminals (trace log) = [Did (Succeed (VFile event))]
  /\ (forall w',
        (forall c, is_write c = false -> respond w' c = respond w c) ->
        stream_rows w' (bucketName event) (objectKey event) = rows ->
        processFile policy w' event = log).
Proof.
  intros Hwait log rows. subst log rows.
  rewrite (processFile_available policy w event d Hwait).
  split; [|split; [|split; [|split]]].
  - eexists [_; _; _; _]. reflexivity.
  - simpl. intros c H.
    repeat (destruct H as [H|H]; [try discriminate; injection H as <-; reflexivity|]).
    destruct H.
  - reflexivity.
  - unfold trace, terminals. simpl. f_equal. apply terminals_rows.
  - intros w' Hsame Hrows.
    rewrite (processFile_available policy w' event d).
    + rewrite Hrows. reflexivity.
    + rewrite Hsame; auto.
Qed.

Lemma processFile_reports_before_rows_witness :
  respond sample_world (WaitForObjectExists "src" "f.csv") = Success VResponse
  /\ terminals (trace (processFile Propagate sample_world sample_file))
     = [Did (Succeed (VFile sample_file))]
  /\ length (later (processFile Propagate sample_world sample_file)) = 2.
Proof.
  split; [reflexivity|].
  pose proof (processFile_reports_before_rows Propagate sample_world sample_file
                VResponse eq_refl) as (_ & _ & Hlater & Hterm & _).
  split; [exact Hterm|]. rewrite Hlater. reflexivity.
Defined.

(** C10.  Whenever [processFile] signals success, the value it reports is
    its input event itself, whatever the rows of the object are. *)
Theorem processFile_succeeds_with_event
  (policy : ThrowPolicy) (w : World) (event : FileEvent) (v : Value) :
  In (Did (Succeed v)) (trace (processFile policy w event)) ->
  v = VFile event.
Proof.
  destruct (respond w (WaitForObjectExists (bucketName event) (objectKey event)))
    as [e|d] eqn:Hwait.
  - rewrite (processFile_unavailable policy w event e Hwait). simpl.
    intros H. repeat (destruct H as [H|H]; [discriminate|]). destruct H.
  - rewrite (processFile_available policy w event d Hwait).
    unfold trace. simpl. intros H.
    repeat (destruct H as [H|H]; [try discriminate|]).
    + injection H as <-. reflexivity.
    + apply in_map_iff in H as (data & H & _). discriminate.
Qed.

Lemma processFile_succeeds_with_event_witness :
  In (Did (Succeed (VFile sample_file)))
     (trace (processFile Propagate sample_world sample_file))
  /\ VFile sample_file = VFile sample_file.
Proof.
  assert (H : In (Did (Succeed (VFile sample_file)))
                 (trace (processFile Propagate sample_world sample_file))).
  { vm_compute. tauto. }
  split; [exact H|].
  exact (processFile_succeeds_with_event Propagate sample_world sample_file
           (VFile sample_file) H).
Defined.

(** The ingestion step calls [dynamodb.putItem] exactly once per decoded
    row, in the order of the rows, each call for the table [sensor_data],
    with field 0 as the string attribute [sensor_id] and fields 1 and 2 as
    the numeric attributes [timestamp] and [value]; so does [processFile]
    whenever the object is available, and these are all its [putItem]
    calls.  For the stream of the two rows [s1,100,3.5] and [s2,200,4.1]
    these are exactly two calls, with the attributes of the two rows. *)
Lemma ingest_one_putItem_call_per_row :
  (forall w event arg,
      let rows := stream_rows w (bucketName event) (objectKey event) in
      later (fst (ingest w event arg))
      = map (fun data =>
               Request (PutItem "sensor_data"
                          {| sensor_id_S := data !! 0;
                             timestamp_N := data !! 1;
                             value_N := data !! 2 |})) rows
      /\ now (fst (ingest w event arg))
         = [Request (GetObjectStream (bucketName event) (objectKey event))])
  /\
  (forall policy w event d,
      respond w (WaitForObjectExists (bucketName event) (objectKey event)) = Success d ->
      let rows := stream_rows w (bucketName event) (objectKey event) in
      List.filter is_write (requests (trace (processFile policy w event)))
      = map (fun data =>
               PutItem "sensor_data"
                 {| sensor_id_S := data !! 0;
                    timestamp_N := data !! 1;
                    value_N := data !! 2 |}) rows
      /\ length (List.filter is_write (requests (trace (processFile policy w event))))
         = length rows)
  /\
  (csv_rows two_rows = [ ["s1"; "100"; "3.5"]; ["s2"; "200"; "4.1"] ]
   /\
   forall policy w event d,
     respond w (WaitForObjectExists (bucketName event) (objectKey event)) = Success d ->
     stream_rows w (bucketName event) (objectKey event) = csv_rows two_rows ->
     List.filter is_write (requests (trace (processFile policy w event)))
     = [ PutItem "sensor_data"
           {| sensor_id_S := Some "s1"; timestamp_N := Some "100"; value_N := Some "3.5" |};
         PutItem "sensor_data"
           {| sensor_id_S := Some "s2"; timestamp_N := Some "200"; value_N := Some "4.1" |} ]).
Proof.
  assert (Hwrites : forall policy w event d,
    respond w (WaitForObjectExists (bucketName event) (objectKey event)) = Success d ->
    List.filter is_write (requests (trace (processFile policy w event)))
    = map putItem_of_row (stream_rows w (bucketName event) (objectKey event))).
  { intros policy w event d Hwait.
    rewrite (processFile_available policy w event d Hwait).
    unfold trace. simpl. rewrite requests_rows. apply writes_rows. }
  split; [|split; [|split]].
  - intros w event arg. split; reflexivity.
  - intros policy w event d Hwait rows.
    rewrite (Hwrites policy w event d Hwait). split; [reflexivity|].
    apply length_map.
  - reflexivity.
  - intros policy w event d Hwait Hrows.
    rewrite (Hwrites policy w event d Hwait), Hrows. reflexivity.
Qed.

(** C7.  [processFile] on the object [src/f.csv] whose stream decodes to
    the two rows [s1,100,3.5] and [s2,200,4.1]: the row handler calls
    [dynamodb.putItem] once for each row with the attributes of the row,
    but without a callback and without sending the request object it gets
    back, so neither call reaches the table store: the requests sent in
    the run are the wait and the read of the object, and no write. *)
Theorem processFile_sends_no_write (policy : ThrowPolicy) :
  let log := trace (processFile policy sample_world sample_file) in
  stream_rows sample_world "src" "f.csv"
  = [ ["s1"; "100"; "3.5"]; ["s2"; "200"; "4.1"] ]
  /\
  List.filter is_write (requests log)
  = [ PutItem "sensor_data"
        {| sensor_id_S := Some "s1"; timestamp_N := Some "100"; value_N := Some "3.5" |};
      PutItem "sensor_data"
        {| sensor_id_S := Some "s2"; timestamp_N := Some "200"; value_N := Some "4.1" |} ]
  /\
  sent_requests log
  = [ WaitForObjectExists "src" "f.csv"; GetObjectStream "src" "f.csv" ]
  /\
  List.filter is_write (sent_requests log) = [].
Proof.
  destruct policy; repeat split; reflexivity.
Qed.

(** ** Relocation and notification *)

Section MoveFile.
Variable policy : ThrowPolicy.
Variable w : World.
Variable env : Env.
Variable event : FileEvent.

Let newLocation := "processed/" +:+ objectKey event.
Let copy :=
  CopyObject (TARGET_BUCKET env) newLocation
    (bucketName event +:+ "/" +:+ encodeURIComponent (objectKey event)).
Let wait := WaitForObjectExists (TARGET_BUCKET env) newLocation.
Let del := DeleteObject (bucketName event) (objectKey event).
Let moved := VMoved (bucketName event) (objectKey event) newLocation.

(** The run of [moveFile], by the answers of the object store. *)
Lemma moveFile_run :
  trace (moveFile policy w env event)
  = Invoked 0 :: Did (Request copy) ::
    match respond w copy with
    | Failure e =>
        [Fired 0 (VError e) VNull; Completed (VError e) VNull; Did (Fail VUndefined)]
    | Success d1 =>
        Fired 0 VNull d1 :: Invoked 1 :: Did (Request wait) ::
        match respond w wait with
        | Failure e =>
            [Fired 1 (VError e) VNull; Completed (VError e) VNull; Did (Fail VUndefined)]
        | Success d2 =>
            Fired 1 VNull d2 :: Invoked 2 :: Did (Request del) ::
            match respond w del with
            | Failure e =>
                [Fired 2 (VError e) VNull; Completed (VError e) VNull;
                 Did (Fail VUndefined)]
            | Success d3 =>
                [Fired 2 VNull d3; Completed VNull d3; Did (Succeed moved)]
            end
        end
    end.
Proof.
  unfold moveFile, waterfall, nextTask, sdk, trace.
  fold newLocation. fold copy. fold wait. fold del.
  destruct (respond w copy); [reflexivity|].
  destruct (respond w wait); [reflexivity|].
  destruct (respond w del); reflexivity.
Qed.
End MoveFile.

(** C8.  [moveFile] copies the object to the key ['processed/' + objectKey]
    of the target bucket, then waits for that key to exist, then deletes
    the source object, each request issued only when the one before was
    accepted: the requests of a run are the copy alone, the copy and the
    wait, or all three, in this order.  All three accepted, the handler
    succeeds with the bucket, the key and the new location.  The delete is
    requested only when both the copy and the wait were accepted.  When the
    copy is accepted and the wait fails, the handler fails, the source
    object is still in the store if it was there, and the destination
    object is there.  The example: [src/f.csv] towards the bucket [dst]. *)
Theorem moveFile_copy_wait_delete
  (policy : ThrowPolicy) (w : World) (env : Env) (event : FileEvent) :
  let newLocation := "processed/" +:+ objectKey event in
  let copy :=
    CopyObject (TARGET_BUCKET env) newLocation
      (bucketName event +:+ "/" +:+ encodeURIComponent (objectKey event)) in
  let wait := WaitForObjectExists (TARGET_BUCKET env) newLocation in
  let del := DeleteObject (bucketName event) (objectKey event) in
  let log := trace (moveFile policy w env event) in
  (requests log
   = match respond w copy, respond w wait with
     | Failure _, _ => [copy]
     | Success _, Failure _ => [copy; wait]
     | Success _, Success _ => [copy; wait; del]
     end)
  /\
  (forall d1 d2 d3,
      respond w copy = Success d1 -> respond w wait = Success d2 ->
      respond w del = Success d3 ->
      requests log = [copy; wait; del] /\
      terminals log
      = [Did (Succeed (VMoved (bucketName event) (objectKey event) newLocation))])
  /\
  (In del (requests log) ->
   (exists d1, respond w copy = Success d1) /\ (exists d2, respond w wait = Success d2))
  /\
  (forall d1 e (store : gset (string * string)),
      respond w copy = Success d1 -> respond w wait = Failure e ->
      requests log = [copy; wait] /\
      terminals log = [Did (Fail VUndefined)] /\
      ((bucketName event, objectKey event) ∈ store ->
       (bucketName event, objectKey event) ∈ store_after w store log) /\
      (TARGET_BUCKET env, newLocation) ∈ store_after w store log)
  /\
  (requests (trace (moveFile policy sample_world (sample_env "X") sample_file))
   = [ CopyObject "dst" "processed/f.csv" "src/f.csv";
       WaitForObjectExists "dst" "processed/f.csv";
       DeleteObject "src" "f.csv" ]
   /\
   requests (trace (moveFile policy waitless_world (sample_env "X") sample_file))
   = [ CopyObject "dst" "processed/f.csv" "src/f.csv";
       WaitForObjectExists "dst" "processed/f.csv" ]).
Proof.
  intros newLocation copy wait del log.
  assert (Hrun := moveFile_run policy w env event).
  fold newLocation copy wait del log in Hrun.
  split; [|split; [|split; [|split]]].
  - rewrite Hrun.
    destruct (respond w copy); [reflexivity|].
    destruct (respond w wait); [reflexivity|].
    destruct (respond w del); reflexivity.
  - intros d1 d2 d3 H1 H2 H3. rewrite Hrun, H1, H2, H3. split; reflexivity.
  - rewrite Hrun.
    destruct (respond w copy) as [e1|d1].
    { simpl. intros [H|[]]. discriminate. }
    destruct (respond w wait) as [e2|d2].
    { simpl. intros [H|[H|[]]]; discriminate. }
    eauto.
  - intros d1 e store H1 H2. rewrite Hrun, H1, H2.
    split; [reflexivity|]. split; [reflexivity|].
    unfold store_after. simpl. unfold store_step, copy, wait in *.
    rewrite H1. split; set_solver.
  - split; destruct policy; reflexivity.
Qed.

(** C9.  [sendEmail] requests exactly one message in every run: to the
    configured address, from that address, with the subject
    [File processed] and the body [Processed file ] followed by the key of
    the object.  It does not try again: the handler fails when the send is
    refused and succeeds with [OK] when it is accepted.  The example: the
    key [f.csv] and the address [a@b.com]. *)
Theorem sendEmail_one_message
  (policy : ThrowPolicy) (w : World) (env : Env) (event : FileEvent) :
  let send :=
    SendEmail [DEST_EMAIL env] ("Processed file " +:+ objectKey event)
      "File processed" (DEST_EMAIL env) in
  let log := trace (sendEmail policy w env event) in
  requests log = [send]
  /\
  terminals log
  = [ match respond w send with
      | Failure _ => Did (Fail VUndefined)
      | Success _ => Did (Succeed (VStr "OK"))
      end ]
  /\
  requests (trace (sendEmail policy sample_world (sample_env "X") sample_file))
  = [ SendEmail ["a@b.com"] "Processed file f.csv" "File processed" "a@b.com" ].
Proof.
  intros send log. subst log.
  unfold sendEmail, waterfall, nextTask, sdk, trace. fold send.
  split; [|split].
  - destruct (respond w send); reflexivity.
  - destruct (respond w send); reflexivity.
  - reflexivity.
Qed.

(** ** Terminal signals *)

(** The three handlers that give [async.waterfall] a final callback send
    exactly one terminal signal in every run. *)
Lemma one_terminal_signal_with_final_callback
  (policy : ThrowPolicy) (w : World) (env : Env) (event : FileEvent) :
  length (terminals (trace (processFile policy w event))) = 1
  /\ length (terminals (trace (moveFile policy w env event))) = 1
  /\ length (terminals (trace (sendEmail policy w env event))) = 1.
Proof.
  split; [|split].
  - destruct (respond w (WaitForObjectExists (bucketName event) (objectKey event)))
      as [e|d] eqn:Hwait.
    + rewrite (processFile_unavailable policy w event e Hwait). reflexivity.
    + rewrite (processFile_available policy w event d Hwait).
      unfold trace, terminals. simpl.
      fold (terminals (map (fun data => Did (Request (putItem_of_row data)))
                         (stream_rows w (bucketName event) (objectKey event)))).
      rewrite terminals_rows. reflexivity.
  - rewrite moveFile_run.
    repeat match goal with
           | |- context [match respond w ?c with _ => _ end] =>
               destruct (respond w c)
           end; reflexivity.
  - unfold sendEmail, waterfall, nextTask, sdk, trace.
    destruct (respond w _); reflexivity.
Qed.

(** So does [executeWorkflow] on an event without [Records], and on an
    event with a record when the lookup and the start are accepted. *)
Lemma executeWorkflow_signals_once (policy : ThrowPolicy) (w : World) (env : Env) :
  terminals (trace (executeWorkflow policy w env WithoutRecords))
  = [Did (Fail (VStr no_records_message))]
  /\
  forall r rest machines a d,
    respond w ListStateMachines = Success (VListing machines) ->
    scan (STEP_FUNCTION_NAME env) machines = Some a ->
    respond w (StartExecution (VStr a)
                 (stringify_input (s3_object_key r) (s3_bucket_name r))) = Success d ->
    terminals (trace (executeWorkflow policy w env (WithRecords (r :: rest))))
    = [Did (Succeed (VStr "OK"))].
Proof.
  split; [reflexivity|].
  intros r rest machines a d Hlist Hscan Hstart.
  unfold executeWorkflow, waterfall, nextTask, listWorkflows,
    resolveWorkflow, startWorkflow, reportOK, sdk, trace.
  rewrite Hlist. simpl. rewrite Hscan. simpl. rewrite Hstart. reflexivity.
Qed.

(** Whatever the engine answers with an error to the listing, the run of
    [executeWorkflow] ends there, without a terminal signal. *)
Lemma executeWorkflow_listing_error policy w env Records e :
  respond w ListStateMachines = Failure e ->
  trace (executeWorkflow policy w env (WithRecords Records))
  = [ Invoked 0; Did (Request ListStateMachines);
      Fired 0 (VError e) VNull; Completed (VError e) VNull ].
Proof.
  intros H.
  unfold executeWorkflow, waterfall, nextTask, listWorkflows, sdk, trace.
  rewrite H. reflexivity.
Qed.

(** C4.  [executeWorkflow] on an event with one record, the listing
    holding the workflows [X] and [Y], the wanted name being [Z]: the
    lookup step throws the bare string, and the run ends without any
    terminal signal, whether the executor lets the exception escape or
    hands it to its final callback, since the handler gave it none. *)
Theorem executeWorkflow_lookup_failure_unrouted (policy : ThrowPolicy) :
  let log := trace (executeWorkflow policy sample_world (sample_env "Z") sample_trigger) in
  snd (resolveWorkflow "Z"
         (VListing [ {| name := "X"; stateMachineArn := "A1" |};
                     {| name := "Y"; stateMachineArn := "A2" |} ]))
    = Raised (VStr not_found_message)
  /\
  log = [ Invoked 0; Did (Request ListStateMachines);
          Fired 0 VNull
            (VListing [ {| name := "X"; stateMachineArn := "A1" |};
                        {| name := "Y"; stateMachineArn := "A2" |} ]);
          Invoked 1;
          match policy with
          | Propagate => Uncaught (VStr not_found_message)
          | RouteToCallback => Completed (VStr not_found_message) VUndefined
          end ]
  /\
  terminals log = [].
Proof.
  destruct policy; repeat split; reflexivity.
Qed.

(** C5.  [executeWorkflow] on an event with one record, the engine
    refusing the listing: the error reaches the callback of the first
    step, the executor completes with it, and the run ends without any
    terminal signal: neither [context.fail] nor [context.succeed] is
    called. *)
Theorem executeWorkflow_error_without_signal (policy : ThrowPolicy) :
  let log := trace (executeWorkflow policy failing_world (sample_env "X") sample_trigger) in
  log = [ Invoked 0; Did (Request ListStateMachines);
          Fired 0 (VError engine_error) VNull;
          Completed (VError engine_error) VNull ]
  /\
  terminals log = [].
Proof.
  destruct policy; split; reflexivity.
Qed.

(** * Further properties of the handlers *)

(** ** [executeWorkflow] *)

(** The run of [executeWorkflow] on an event with [Records], by the
    answers of the workflow engine. *)
Lemma executeWorkflow_run policy w env Records :
  trace (executeWorkflow policy w env (WithRecords Records))
  = Invoked 0 :: Did (Request ListStateMachines) ::
    match respond w ListStateMachines with
    | Failure e => [Fired 0 (VError e) VNull; Completed (VError e) VNull]
    | Success data =>
        Fired 0 VNull data :: Invoked 1 ::
        match data with
        | VListing machines =>
            match scan (STEP_FUNCTION_NAME env) machines with
            | Some a =>
                Fired 1 VNull (VStr a) :: Invoked 2 ::
                match Records with
                | [] => [thrown policy VTypeError]
                | r :: _ =>
                    let start :=
                      StartExecution (VStr a)
                        (stringify_input (s3_object_key r) (s3_bucket_name r)) in
                    Did (Request start) ::
                    match respond w start with
                    | Failure e => [Fired 2 (VError e) VNull; Completed (VError e) VNull]
                    | Success d =>
                        [Fired 2 VNull d; Invoked 3; Did (Succeed (VStr "OK"))]
                    end
                end
            | None => [thrown policy (VStr not_found_message)]
            end
        | _ => [thrown policy VTypeError]
        end
    end.
Proof.
  unfold executeWorkflow, waterfall, nextTask, listWorkflows,
    resolveWorkflow, startWorkflow, reportOK, sdk, trace.
  destruct (respond w ListStateMachines) as [e|data]; [reflexivity|].
  destruct data as [| | | | |machines| | |];
    try solve [destruct policy; reflexivity].
  destruct (scan (STEP_FUNCTION_NAME env) machines) as [a|];
    [|destruct policy; reflexivity].
  destruct Records as [|r rest]; [destruct policy; reflexivity|].
  simpl. destruct (respond w (StartExecution _ _)); reflexivity.
Qed.

Lemma thrown_not_terminal policy exn : is_terminal (thrown policy exn) = false.
Proof. destruct policy; reflexivity. Qed.

Lemma thrown_not_effect policy exn e : thrown policy exn <> Did e.
Proof. destruct policy; discriminate. Qed.

(** X1.  [executeWorkflow] calls [context.fail] in one case only, the
    event without [Records], and then with the fixed message.  On an event
    with [Records] it sends at most one terminal signal, [succeed('OK')],
    and sends it exactly when the listing is answered, the wanted name is
    found in it, there is a first record and the start of the execution is
    accepted. *)
Theorem executeWorkflow_terminal_signals
  (policy : ThrowPolicy) (w : World) (env : Env) :
  (forall event v,
      In (Did (Fail v)) (trace (executeWorkflow policy w env event)) <->
      event = WithoutRecords /\ v = VStr no_records_message)
  /\
  (forall Records,
      let log := trace (executeWorkflow policy w env (WithRecords Records)) in
      (terminals log = [Did (Succeed (VStr "OK"))] \/ terminals log = [])
      /\
      (terminals log = [Did (Succeed (VStr "OK"))] <->
       exists machines a r rest d,
         respond w ListStateMachines = Success (VListing machines) /\
         scan (STEP_FUNCTION_NAME env) machines = Some a /\
         Records = r :: rest /\
         respond w (StartExecution (VStr a)
                      (stringify_input (s3_object_key r) (s3_bucket_name r)))
         = Success d)).
Proof.
  split.
  - intros [Records|] v.
    + rewrite executeWorkflow_run. split; [|intros [? _]; discriminate].
      intros H. exfalso.
      pose proof (thrown_not_effect policy) as Hthrown.
      destruct (respond w ListStateMachines) as [e|data].
      { simpl in H. intuition discriminate. }
      destruct data as [| | | | |machines| | |];
        try solve [simpl in H; intuition (try discriminate; eapply Hthrown; eauto)].
      destruct (scan (STEP_FUNCTION_NAME env) machines) as [a|];
        [|simpl in H; intuition (try discriminate; eapply Hthrown; eauto)].
      destruct Records as [|r rest];
        [simpl in H; intuition (try discriminate; eapply Hthrown; eauto)|].
      cbv zeta in H.
      destruct (respond w (StartExecution _ _)); simpl in H; intuition discriminate.
    + simpl. split.
      * intros [H|[]]. injection H as <-. auto.
      * intros [_ ->]. auto.
  - intros Records log. subst log. rewrite executeWorkflow_run.
    pose proof (thrown_not_terminal policy) as Hthrown.
    destruct (respond w ListStateMachines) as [e|data] eqn:Hlist.
    { simpl. split; [auto|]. split; [discriminate|].
      intros (? & ? & ? & ? & ? & ? & _). discriminate. }
    destruct data as [| | | | |machines| | |];
      try solve [unfold terminals; simpl; rewrite Hthrown; split;
                 [auto|split; [discriminate|
                   intros (? & ? & ? & ? & ? & ? & _); discriminate]]].
    destruct (scan (STEP_FUNCTION_NAME env) machines) as [a|] eqn:Hscan.
    2:{ unfold terminals; simpl; rewrite Hthrown. split; [auto|].
        split; [discriminate|].
        intros (m & a & ? & ? & ? & Hm & Hs & _).
        injection Hm as <-. congruence. }
    destruct Records as [|r rest].
    { unfold terminals; simpl; rewrite Hthrown. split; [auto|].
      split; [discriminate|].
      intros (? & ? & ? & ? & ? & _ & _ & ? & _). discriminate. }
    cbv zeta.
    destruct (respond w (StartExecution _ _)) as [e|d] eqn:Hstart.
    + simpl. split; [auto|]. split; [discriminate|].
      intros (m & a' & r' & rest' & d & Hm & Hs & Hr & Hd).
      injection Hm as <-. injection Hr as <- <-.
      rewrite Hscan in Hs. injection Hs as <-. congruence.
    + simpl. split; [auto|]. split; [|reflexivity].
      intros _. exists machines, a, r, rest, d. auto.
Qed.

(** X2.  On an event whose [Records] array is empty, once the listing is
    answered and the wanted name is found, the start step throws a
    [TypeError] on the missing first record: the listing is the only
    request, no execution is started and no terminal signal is sent. *)
Theorem executeWorkflow_empty_records
  (policy : ThrowPolicy) (w : World) (env : Env)
  (machines : list StateMachine) (a : string) :
  respond w ListStateMachines = Success (VListing machines) ->
  scan (STEP_FUNCTION_NAME env) machines = Some a ->
  let log := trace (executeWorkflow policy w env (WithRecords [])) in
  log = [ Invoked 0; Did (Request ListStateMachines);
          Fired 0 VNull (VListing machines);
          Invoked 1; Fired 1 VNull (VStr a);
          Invoked 2; thrown policy VTypeError ]
  /\ requests log = [ListStateMachines]
  /\ terminals log = [].
Proof.
  intros Hlist Hscan log. subst log.
  rewrite executeWorkflow_run, Hlist, Hscan.
  split; [reflexivity|]. destruct policy; split; reflexivity.
Qed.

Lemma executeWorkflow_empty_records_witness :
  respond sample_world ListStateMachines
  = Success (VListing [ {| name := "X"; stateMachineArn := "A1" |};
                        {| name := "Y"; stateMachineArn := "A2" |} ])
  /\ requests (trace (executeWorkflow Propagate sample_world (sample_env "X")
                        (WithRecords [])))
     = [ListStateMachines].
Proof.
  split; [reflexivity|].
  exact (proj1 (proj2 (executeWorkflow_empty_records Propagate sample_world
                         (sample_env "X") _ "A1" eq_refl eq_refl))).
Defined.

(** ** [processFile] *)

(** X3.  When the wait for the object fails, [processFile] requests
    nothing else: the stream is never opened and no row is ever written,
    not in a later turn either; the handler fails with the fixed text
    [Execution failed], whatever the error of the wait was. *)
Theorem processFile_unavailable_object
  (policy : ThrowPolicy) (w : World) (event : FileEvent) (e : AwsError) :
  respond w (WaitForObjectExists (bucketName event) (objectKey event)) = Failure e ->
  let log := processFile policy w event in
  requests (trace log) = [WaitForObjectExists (bucketName event) (objectKey event)]
  /\ later log = []
  /\ terminals (trace log) = [Did (Fail (VStr "Execution failed"))]
  /\ (forall w' e',
        respond w' (WaitForObjectExists (bucketName event) (objectKey event))
        = Failure e' ->
        terminals (trace (processFile policy w' event)) = terminals (trace log)).
Proof.
  intros Hwait log. subst log.
  rewrite (processFile_unavailable policy w event e Hwait).
  repeat split.
  intros w' e' Hwait'.
  rewrite (processFile_unavailable policy w' event e' Hwait'). reflexivity.
Qed.

Lemma processFile_unavailable_object_witness :
  respond waitless_world (WaitForObjectExists "src" "f.csv") = Failure timeout_error
  /\ requests (trace (processFile Propagate waitless_world sample_file))
     = [WaitForObjectExists "src" "f.csv"].
Proof.
  split; [reflexivity|].
  exact (proj1 (processFile_unavailable_object Propagate waitless_world
                  sample_file timeout_error eq_refl)).
Defined.

(** ** Terminal signals of the handlers with a final callback *)

(** X8.  The error of a refused request never reaches the caller of these
    three handlers: [processFile] fails with the fixed text
    [Execution failed], [moveFile] and [sendEmail] fail with no value at
    all. *)
Theorem failures_carry_no_error
  (policy : ThrowPolicy) (w : World) (env : Env) (event : FileEvent) :
  (forall v, In (Did (Fail v)) (trace (processFile policy w event)) ->
             v = VStr "Execution failed")
  /\ (forall v, In (Did (Fail v)) (trace (moveFile policy w env event)) ->
                v = VUndefined)
  /\ (forall v, In (Did (Fail v)) (trace (sendEmail policy w env event)) ->
                v = VUndefined).
Proof.
  split; [|split]; intros v.
  - destruct (respond w (WaitForObjectExists (bucketName event) (objectKey event)))
      as [e|d] eqn:Hwait.
    + rewrite (processFile_unavailable policy w event e Hwait). simpl.
      intros H. repeat (destruct H as [H|H]; [try discriminate|]).
      * injection H as <-. reflexivity.
      * destruct H.
    + rewrite (processFile_available policy w event d Hwait).
      unfold trace. simpl. intros H.
      repeat (destruct H as [H|H]; [discriminate|]).
      apply in_map_iff in H as (data & H & _). discriminate.
  - rewrite moveFile_run.
    repeat match goal with
           | |- context [match respond w ?c with _ => _ end] =>
               destruct (respond w c)
           end; simpl; intros H;
      repeat (destruct H as [H|H]; [try discriminate; injection H as <-; reflexivity|]);
      destruct H.
  - unfold sendEmail, waterfall, nextTask, sdk, trace.
    destruct (respond w _); simpl; intros H;
      repeat (destruct H as [H|H]; [try discriminate; injection H as <-; reflexivity|]);
      destruct H.
Qed.

(** X9.  In [processFile], [moveFile] and [sendEmail] the terminal signal
    is the last thing of the run: everything before it is free of terminal
    signals, and nothing follows it within the run. *)
Theorem terminal_signal_ends_the_run
  (policy : ThrowPolicy) (w : World) (env : Env) (event : FileEvent) :
  let ends_with_signal (run : list Event) :=
    exists before signal,
      run = before ++ [signal] /\ is_terminal signal = true /\ terminals before = [] in
  ends_with_signal (now (processFile policy w event))
  /\ ends_with_signal (now (moveFile policy w env event))
  /\ later (moveFile policy w env event) = []
  /\ ends_with_signal (now (sendEmail policy w env event))
  /\ later (sendEmail policy w env event) = [].
Proof.
  intros ends_with_signal. subst ends_with_signal. cbv beta.
  split; [|split; [|split; [|split]]].
  - destruct (respond w (WaitForObjectExists (bucketName event) (objectKey event)))
      as [e|d] eqn:Hwait.
    + rewrite (processFile_unavailable policy w event e Hwait).
      eexists [_; _; _; _], _. repeat split.
    + rewrite (processFile_available policy w event d Hwait).
      eexists [_; _; _; _; _; _; _], _. repeat split.
  - unfold moveFile, waterfall, nextTask, sdk.
    repeat match goal with
           | |- context [match respond w ?c with _ => _ end] =>
               destruct (respond w c)
           end; simpl;
      first [ solve [eexists [_; _; _; _], _; repeat split]
            | solve [eexists [_; _; _; _; _; _; _], _; repeat split]
            | solve [eexists [_; _; _; _; _; _; _; _; _; _], _; repeat split] ].
  - unfold moveFile, waterfall, nextTask, sdk.
    repeat match goal with
           | |- context [match respond w ?c with _ => _ end] =>
               destruct (respond w c)
           end; reflexivity.
  - unfold sendEmail, waterfall, nextTask, sdk.
    destruct (respond w _); simpl; eexists [_; _; _; _], _; repeat split.
  - unfold sendEmail, waterfall, nextTask, sdk.
    destruct (respond w _); reflexivity.
Qed.

(** ** [moveFile] and the object store *)

Lemma length_append (a b : string) :
  String.length (a +:+ b) = String.length a + String.length b.
Proof. induction a as [|c a IH]; simpl; [|rewrite IH]; reflexivity. Qed.

(** The new location is never the key itself. *)
Lemma processed_key_differs (key : string) : "processed/" +:+ key <> key.
Proof.
  intros H. apply (f_equal String.length) in H.
  rewrite length_append in H. simpl in H. lia.
Qed.

Section MoveFileStore.
Variable policy : ThrowPolicy.
Variable w : World.
Variable env : Env.
Variable event : FileEvent.
Variable store : gset (string * string).

Let newLocation := "processed/" +:+ objectKey event.
Let copy :=
  CopyObject (TARGET_BUCKET env) newLocation
    (bucketName event +:+ "/" +:+ encodeURIComponent (objectKey event)).
Let wait := WaitForObjectExists (TARGET_BUCKET env) newLocation.
Let del := DeleteObject (bucketName event) (objectKey event).
Let source := (bucketName event, objectKey event).
Let dest := (TARGET_BUCKET env, newLocation).

(** The store after a run of [moveFile], by the answers of the store. *)
Lemma moveFile_store :
  store_after w store (trace (moveFile policy w env event))
  = match respond w copy with
    | Failure _ => store
    | Success _ =>
        match respond w wait with
        | Failure _ => {[ dest ]} ∪ store
        | Success _ =>
            match respond w del with
            | Failure _ => {[ dest ]} ∪ store
            | Success _ => ({[ dest ]} ∪ store) ∖ {[ source ]}
            end
        end
    end.
Proof.
  rewrite moveFile_run. fold newLocation. fold copy. fold wait. fold del.
  unfold store_after.
  destruct (respond w copy) as [e1|d1] eqn:H1.
  { simpl. unfold store_step. unfold copy in *. rewrite H1. reflexivity. }
  destruct (respond w wait) as [e2|d2] eqn:H2.
  { simpl. unfold store_step. unfold copy, wait in *. rewrite H1. reflexivity. }
  destruct (respond w del) as [e3|d3] eqn:H3.
  - simpl. unfold store_step. unfold copy, wait, del in *.
    rewrite H1, H3. reflexivity.
  - simpl. unfold store_step. unfold copy, wait, del in *.
    rewrite H1, H3. reflexivity.
Qed.

Lemma dest_not_source : dest <> source.
Proof.
  unfold dest, source, newLocation. intros H. injection H as _ H.
  exact (processed_key_differs _ H).
Qed.
End MoveFileStore.

(** X6.  [moveFile] reports success exactly when the copy, the wait and
    the delete are all accepted; the object is then at the new location
    and no longer at the old one, also when the target bucket is the
    bucket of the object. *)
Theorem moveFile_success_is_a_move
  (policy : ThrowPolicy) (w : World) (env : Env) (event : FileEvent) :
  let newLocation := "processed/" +:+ objectKey event in
  let copy :=
    CopyObject (TARGET_BUCKET env) newLocation
      (bucketName event +:+ "/" +:+ encodeURIComponent (objectKey event)) in
  let wait := WaitForObjectExists (TARGET_BUCKET env) newLocation in
  let del := DeleteObject (bucketName event) (objectKey event) in
  let log := trace (moveFile policy w env event) in
  let accepted :=
    (exists d1, respond w copy = Success d1)
    /\ (exists d2, respond w wait = Success d2)
    /\ (exists d3, respond w del = Success d3) in
  (In (Did (Succeed (VMoved (bucketName event) (objectKey event) newLocation))) log
   <-> accepted)
  /\ ((exists v, In (Did (Succeed v)) log) -> accepted)
  /\ (accepted ->
      forall store : gset (string * string),
        (TARGET_BUCKET env, newLocation) ∈ store_after w store log
        /\ (bucketName event, objectKey event) ∉ store_after w store log).
Proof.
  intros newLocation copy wait del log accepted. subst log accepted.
  split; [|split].
  - rewrite moveFile_run. fold newLocation. fold copy. fold wait. fold del.
    destruct (respond w copy) as [e1|d1].
    { simpl. split; [intuition discriminate|].
      intros ((? & ?) & _). discriminate. }
    destruct (respond w wait) as [e2|d2].
    { simpl. split; [intuition discriminate|].
      intros (_ & (? & ?) & _). discriminate. }
    destruct (respond w del) as [e3|d3].
    { simpl. split; [intuition discriminate|].
      intros (_ & _ & (? & ?)). discriminate. }
    simpl. split; [eauto 10|]. intros _. do 10 right. left. reflexivity.
  - rewrite moveFile_run. fold newLocation. fold copy. fold wait. fold del.
    intros (v & H).
    destruct (respond w copy) as [e1|d1].
    { simpl in H. intuition discriminate. }
    destruct (respond w wait) as [e2|d2].
    { simpl in H. intuition discriminate. }
    destruct (respond w del) as [e3|d3].
    { simpl in H. intuition discriminate. }
    eauto 10.
  - intros ((d1 & H1) & (d2 & H2) & (d3 & H3)) store.
    rewrite moveFile_store. fold newLocation. fold copy. fold wait. fold del.
    rewrite H1, H2, H3.
    pose proof (dest_not_source env event) as Hne. fold newLocation in Hne.
    generalize dependent (TARGET_BUCKET env, newLocation).
    generalize (bucketName event, objectKey event).
    intros source dest Hne. split; set_solver.
Qed.

(** X7.  When the copy and the wait are accepted and the delete is
    refused, [moveFile] has issued all three requests and fails; the
    source object is still in the store and so is the copy: the object is
    then in both places. *)
Theorem moveFile_delete_refused
  (policy : ThrowPolicy) (w : World) (env : Env) (event : FileEvent)
  (d1 d2 : Value) (e : AwsError) (store : gset (string * string)) :
  let newLocation := "processed/" +:+ objectKey event in
  let copy :=
    CopyObject (TARGET_BUCKET env) newLocation
      (bucketName event +:+ "/" +:+ encodeURIComponent (objectKey event)) in
  let wait := WaitForObjectExists (TARGET_BUCKET env) newLocation in
  let del := DeleteObject (bucketName event) (objectKey event) in
  respond w copy = Success d1 ->
  respond w wait = Success d2 ->
  respond w del = Failure e ->
  let log := trace (moveFile policy w env event) in
  requests log = [copy; wait; del]
  /\ terminals log = [Did (Fail VUndefined)]
  /\ ((bucketName event, objectKey event) ∈ store ->
      (bucketName event, objectKey event) ∈ store_after w store log)
  /\ (TARGET_BUCKET env, newLocation) ∈ store_after w store log.
Proof.
  intros newLocation copy wait del H1 H2 H3 log. subst log.
  rewrite moveFile_store, moveFile_run.
  fold newLocation. fold copy. fold wait. fold del.
  rewrite H1, H2, H3.
  split; [reflexivity|]. split; [reflexivity|]. split; set_solver.
Qed.

Lemma moveFile_delete_refused_witness :
  respond undeletable_world (DeleteObject "src" "f.csv") = Failure delete_error
  /\ requests (trace (moveFile Propagate undeletable_world (sample_env "X") sample_file))
     = [ CopyObject "dst" "processed/f.csv" "src/f.csv";
         WaitForObjectExists "dst" "processed/f.csv";
         DeleteObject "src" "f.csv" ]
  /\ ("dst", "processed/f.csv")
     ∈ store_after undeletable_world {[ ("src", "f.csv") ]}
         (trace (moveFile Propagate undeletable_world (sample_env "X") sample_file)).
Proof.
  split; [reflexivity|].
  pose proof (moveFile_delete_refused Propagate undeletable_world (sample_env "X")
                sample_file VResponse VResponse delete_error {[ ("src", "f.csv") ]}
                eq_refl eq_refl eq_refl) as (Hreq & _ & _ & Hdest).
  split; [exact Hreq|exact Hdest].
Defined.

(** ** The texts the handlers build *)

Lemma append_cons (x : ascii) (a b : string) : String x a +:+ b = String x (a +:+ b).
Proof. reflexivity. Qed.

Lemma append_assoc (a b c : string) : (a +:+ b) +:+ c = a +:+ (b +:+ c).
Proof.
  induction a as [|x a IH]; [reflexivity|].
  rewrite !append_cons, IH. reflexivity.
Qed.

Lemma chars_append (a b : string) :
  list_ascii_of_string (a +:+ b) = list_ascii_of_string a ++ list_ascii_of_string b.
Proof.
  induction a as [|x a IH]; [reflexivity|].
  rewrite append_cons. simpl. rewrite IH. reflexivity.
Qed.

Lemma strip_prefix_append (p s : string) : strip_prefix p (p +:+ s) = Some s.
Proof.
  induction p as [|x p IH]; [reflexivity|].
  rewrite append_cons. simpl. rewrite Ascii.eqb_refl. exact IH.
Qed.

Lemma encodeURIComponent_cons (c : ascii) (s : string) :
  encodeURIComponent (String c s) = encode_char c +:+ encodeURIComponent s.
Proof. reflexivity. Qed.

Lemma percent_decode_char (c : ascii) (tail : string) :
  percent_decode (encode_char c +:+ tail) = option_map (String c) (percent_decode tail).
Proof.
  destruct c as [[|] [|] [|] [|] [|] [|] [|] [|]]; reflexivity.
Qed.

Lemma encode_char_safe (c x : ascii) :
  In x (list_ascii_of_string (encode_char c)) ->
  uri_unreserved x = true /\ x <> "/"%char \/ x = "%"%char.
Proof.
  destruct c as [[|] [|] [|] [|] [|] [|] [|] [|]];
    intros H; vm_compute in H;
    repeat (destruct H as [H|H];
            [subst x; first [right; reflexivity
                            |left; split; [reflexivity|discriminate]]|]);
    destruct H.
Qed.

(** X10.  The copy source that [moveFile] hands to the store names the
    key without loss: decoding the encoded key gives the key back, so two
    keys never share an encoding; the encoded key is made of letters,
    digits, [-_.!~*'()] and [%] only, in particular it holds no slash, so
    the one slash written by the handler is where the key begins; and a key
    made of unreserved characters is written as it is. *)
Theorem copy_source_names_the_key :
  (forall key, percent_decode (encodeURIComponent key) = Some key)
  /\
  (forall key key', encodeURIComponent key = encodeURIComponent key' -> key = key')
  /\
  (forall key x,
      In x (list_ascii_of_string (encodeURIComponent key)) ->
      (uri_unreserved x = true \/ x = "%"%char) /\ x <> "/"%char)
  /\
  (forall key,
      forallb uri_unreserved (list_ascii_of_string key) = true ->
      encodeURIComponent key = key)
  /\
  (forall policy w env event,
      exists encoded others,
        requests (trace (moveFile policy w env event))
        = CopyObject (TARGET_BUCKET env) ("processed/" +:+ objectKey event)
            (bucketName event +:+ "/" +:+ encoded) :: others
        /\ percent_decode encoded = Some (objectKey event)).
Proof.
  assert (Hback : forall key, percent_decode (encodeURIComponent key) = Some key).
  { induction key as [|c key IH]; [reflexivity|].
    rewrite encodeURIComponent_cons, percent_decode_char, IH. reflexivity. }
  split; [exact Hback|]. split; [|split; [|split]].
  - intros key key' H. apply (f_equal percent_decode) in H.
    rewrite !Hback in H. congruence.
  - induction key as [|c key IH]; intros x; [intros []|].
    rewrite encodeURIComponent_cons, chars_append, in_app_iff.
    intros [H|H]; [|exact (IH x H)].
    apply encode_char_safe in H as [[Hu Hne]|Hx]; [auto|].
    subst x. split; [auto|discriminate].
  - induction key as [|c key IH]; [reflexivity|]. simpl.
    intros H. apply andb_prop in H as [Hc Hkey].
    rewrite Hc, (IH Hkey). reflexivity.
  - intros policy w env event. rewrite moveFile_run.
    eexists (encodeURIComponent (objectKey event)), _.
    split; [reflexivity|apply Hback].
Qed.

(** *** The object is kept *)

Lemma percent_decode_encode (key : string) :
  percent_decode (encodeURIComponent key) = Some key.
Proof.
  induction key as [|c key IH]; [reflexivity|].
  rewrite encodeURIComponent_cons, percent_decode_char, IH. reflexivity.
Qed.

Lemma cut_at_first (sep : ascii) (before after : string) :
  ~ In sep (list_ascii_of_string before) ->
  cut_at sep (before +:+ String sep after) = Some (before, after).
Proof.
  induction before as [|c before IH]; intros Hfree.
  - simpl. rewrite Ascii.eqb_refl. reflexivity.
  - rewrite append_cons. simpl.
    destruct (Ascii.eqb_spec c sep) as [->|Hne].
    + exfalso. apply Hfree. simpl. auto.
    + rewrite IH; [reflexivity|]. intros Hin. apply Hfree. simpl. auto.
Qed.

(** The copy source of [moveFile] names the object of the event. *)
Lemma read_copy_source_of_event (bucket key : string) :
  ~ In "/"%char (list_ascii_of_string bucket) ->
  read_copy_source (bucket +:+ "/" +:+ encodeURIComponent key) = Some (bucket, key).
Proof.
  intros Hfree. unfold read_copy_source.
  change ("/" +:+ encodeURIComponent key)
    with (String "/"%char (encodeURIComponent key)).
  rewrite (cut_at_first _ _ _ Hfree), percent_decode_encode. reflexivity.
Qed.

Section MoveFileObjects.
Variable policy : ThrowPolicy.
Variable w : World.
Variable env : Env.
Variable event : FileEvent.
Variable objects : gmap (string * string) string.
Variable body : string.
Hypothesis bucket_without_slash :
  ~ In "/"%char (list_ascii_of_string (bucketName event)).
Hypothesis object_there :
  objects !! (bucketName event, objectKey event) = Some body.

Let newLocation := "processed/" +:+ objectKey event.
Let copy :=
  CopyObject (TARGET_BUCKET env) newLocation
    (bucketName event +:+ "/" +:+ encodeURIComponent (objectKey event)).
Let wait := WaitForObjectExists (TARGET_BUCKET env) newLocation.
Let del := DeleteObject (bucketName event) (objectKey event).
Let source := (bucketName event, objectKey event).
Let dest := (TARGET_BUCKET env, newLocation).

(** The objects after a run of [moveFile], by the answers of the store. *)
Lemma moveFile_objects :
  objects_after w objects (trace (moveFile policy w env event))
  = match respond w copy with
    | Failure _ => objects
    | Success _ =>
        match respond w wait with
        | Failure _ => <[ dest := body ]> objects
        | Success _ =>
            match respond w del with
            | Failure _ => <[ dest := body ]> objects
            | Success _ => delete source (<[ dest := body ]> objects)
            end
        end
    end.
Proof.
  rewrite moveFile_run. fold newLocation. fold copy. fold wait. fold del.
  unfold objects_after.
  assert (Hcopy : forall d, respond w copy = Success d ->
                    objects_step w objects copy = <[ dest := body ]> objects).
  { intros d H. unfold objects_step. unfold copy in *. rewrite H.
    rewrite (read_copy_source_of_event _ _ bucket_without_slash), object_there.
    reflexivity. }
  destruct (respond w copy) as [e1|d1] eqn:H1.
  { simpl. unfold objects_step. unfold copy in *. rewrite H1. reflexivity. }
  destruct (respond w wait) as [e2|d2] eqn:H2.
  { unfold requests. cbn [flat_map app fold_left].
    rewrite (Hcopy d1 eq_refl). reflexivity. }
  destruct (respond w del) as [e3|d3] eqn:H3.
  - unfold requests. cbn [flat_map app fold_left].
    rewrite (Hcopy d1 eq_refl).
    unfold objects_step at 1. unfold del in *. rewrite H3. reflexivity.
  - unfold requests. cbn [flat_map app fold_left].
    rewrite (Hcopy d1 eq_refl).
    unfold objects_step at 1. unfold del in *. rewrite H3. reflexivity.
Qed.
End MoveFileObjects.

(** X5.  [moveFile] never loses the object of the event.  Take a store
    that holds the object with some contents, and a bucket name without a
    slash.  Whatever the store answers, after the run these contents are
    at the source or at the destination; when they are no longer at the
    source, they are at the destination and the handler has reported
    success; once the copy is accepted they are at the destination; and no
    other object of the store has changed. *)
Theorem moveFile_never_loses_the_object
  (policy : ThrowPolicy) (w : World) (env : Env) (event : FileEvent)
  (objects : gmap (string * string) string) (body : string) :
  ~ In "/"%char (list_ascii_of_string (bucketName event)) ->
  objects !! (bucketName event, objectKey event) = Some body ->
  let source := (bucketName event, objectKey event) in
  let dest := (TARGET_BUCKET env, "processed/" +:+ objectKey event) in
  let copy :=
    CopyObject (TARGET_BUCKET env) ("processed/" +:+ objectKey event)
      (bucketName event +:+ "/" +:+ encodeURIComponent (objectKey event)) in
  let log := trace (moveFile policy w env event) in
  let final := objects_after w objects log in
  (final !! source = Some body \/ final !! dest = Some body)
  /\ (final !! source <> Some body ->
      final !! dest = Some body /\
      terminals log
      = [Did (Succeed (VMoved (bucketName event) (objectKey event)
                         ("processed/" +:+ objectKey event)))])
  /\ ((exists d, respond w copy = Success d) -> final !! dest = Some body)
  /\ (forall other, other <> source -> other <> dest ->
      final !! other = objects !! other).
Proof.
  intros Hfree Hthere source dest copy log final. subst final log.
  rewrite (moveFile_objects policy w env event objects body Hfree Hthere).
  rewrite moveFile_run. fold source. fold dest. fold copy.
  pose proof (dest_not_source env event) as Hne. fold source dest in Hne.
  fold source in Hthere.
  destruct (respond w copy) as [e1|d1].
  { split; [auto|]. split; [congruence|]. split; [|reflexivity].
    intros (d & H). discriminate. }
  assert (Hdest : <[dest:=body]> objects !! dest = Some body)
    by apply lookup_insert_eq.
  assert (Hsource : <[dest:=body]> objects !! source = Some body)
    by (rewrite lookup_insert_ne; auto).
  destruct (respond w (WaitForObjectExists _ _)) as [e2|d2].
  { split; [auto|]. split; [congruence|]. split; [auto|].
    intros other _ Ho. rewrite lookup_insert_ne; auto. }
  destruct (respond w (DeleteObject _ _)) as [e3|d3].
  { split; [auto|]. split; [congruence|]. split; [auto|].
    intros other _ Ho. rewrite lookup_insert_ne; auto. }
  assert (Hkept : delete source (<[dest:=body]> objects) !! dest = Some body)
    by (rewrite lookup_delete_ne; auto).
  split; [auto|]. split; [intros _; split; [exact Hkept|reflexivity]|].
  split; [auto|].
  intros other Hs Ho. rewrite lookup_delete_ne, lookup_insert_ne; auto.
Qed.

Lemma moveFile_never_loses_the_object_witness :
  ({[ ("src", "f.csv") := "s1,100" ]} : gmap (string * string) string)
    !! ("src", "f.csv") = Some "s1,100"
  /\ objects_after undeletable_world {[ ("src", "f.csv") := "s1,100" ]}
       (trace (moveFile Propagate undeletable_world (sample_env "X") sample_file))
     !! ("dst", "processed/f.csv") = Some "s1,100".
Proof.
  assert (Hfree : ~ In "/"%char (list_ascii_of_string (bucketName sample_file))).
  { simpl. intros [H|[H|[H|[]]]]; discriminate. }
  assert (Hthere : ({[ ("src", "f.csv") := "s1,100" ]} : gmap (string * string) string)
                     !! (bucketName sample_file, objectKey sample_file)
                   = Some "s1,100")
    by apply lookup_singleton_eq.
  split; [exact Hthere|].
  pose proof (moveFile_never_loses_the_object Propagate undeletable_world
                (sample_env "X") sample_file _ "s1,100" Hfree Hthere)
    as (_ & _ & Hcopy & _).
  apply Hcopy. exists VResponse. reflexivity.
Defined.

Lemma json_read_char (c : ascii) (tail : string) :
  json_read (json_escape_char c +:+ tail) = keep c (json_read tail).
Proof.
  destruct c as [[|] [|] [|] [|] [|] [|] [|] [|]]; reflexivity.
Qed.

Lemma json_read_escape (s tail : string) :
  json_read (json_escape s +:+ String dquote tail) = Some (s, tail).
Proof.
  induction s as [|c s IH]; [reflexivity|].
  change (json_escape (String c s)) with (json_escape_char c +:+ json_escape s).
  rewrite append_assoc, json_read_char, IH. reflexivity.
Qed.

Lemma stringify_input_shape (key bucket : string) :
  stringify_input key bucket
  = ("{" +:+ quoted "objectKey" +:+ ":" +:+ String dquote "")
    +:+ (json_escape key +:+ String dquote
           (("," +:+ quoted "bucketName" +:+ ":" +:+ String dquote "")
            +:+ (json_escape bucket +:+ String dquote "}"))).
Proof.
  unfold stringify_input, json_string.
  generalize (json_escape key) (json_escape bucket). intros k b.
  repeat (rewrite append_cons || rewrite append_assoc). reflexivity.
Qed.

Lemma json_escape_char_printable (c x : ascii) :
  In x (list_ascii_of_string (json_escape_char c)) -> 32 <= nat_of_ascii x.
Proof.
  destruct c as [[|] [|] [|] [|] [|] [|] [|] [|]];
    intros H; vm_compute in H;
    repeat (destruct H as [H|H]; [subst x; vm_compute; lia|]);
    destruct H.
Qed.

Lemma json_escape_printable (s : string) (x : ascii) :
  In x (list_ascii_of_string (json_escape s)) -> 32 <= nat_of_ascii x.
Proof.
  induction s as [|c s IH]; [intros []|].
  change (json_escape (String c s)) with (json_escape_char c +:+ json_escape s).
  rewrite chars_append, in_app_iff.
  intros [H|H]; [exact (json_escape_char_printable c x H)|exact (IH H)].
Qed.

(** X11.  The input of a started execution names the object without
    loss.  The text holds no raw control character, and a reader that
    follows JSON (escapes undone, control characters that are not escaped
    refused) reads it back to exactly the key and the bucket name of the
    first record, whatever characters they hold (quotes, backslashes and
    control characters included); so two different objects never give the
    same input. *)
Theorem execution_input_reads_back :
  (forall key bucket, read_input (stringify_input key bucket) = Some (key, bucket))
  /\
  (forall key bucket x,
      In x (list_ascii_of_string (stringify_input key bucket)) ->
      32 <= nat_of_ascii x)
  /\
  (forall key bucket key' bucket',
      stringify_input key bucket = stringify_input key' bucket' ->
      key = key' /\ bucket = bucket')
  /\
  (forall policy w env r rest arn input,
      In (Did (Request (StartExecution arn input)))
         (trace (executeWorkflow policy w env (WithRecords (r :: rest)))) ->
      read_input input = Some (s3_object_key r, s3_bucket_name r)).
Proof.
  assert (Hback : forall key bucket,
             read_input (stringify_input key bucket) = Some (key, bucket)).
  { intros key bucket. unfold read_input.
    rewrite stringify_input_shape, strip_prefix_append, json_read_escape,
      strip_prefix_append, json_read_escape.
    reflexivity. }
  split; [exact Hback|]. split; [|split].
  - intros key bucket x. rewrite stringify_input_shape.
    rewrite !chars_append. simpl. rewrite !chars_append. simpl.
    rewrite !in_app_iff. simpl. rewrite !in_app_iff. simpl.
    intros H.
    repeat match type of H with
           | _ \/ _ => destruct H as [H|H]
           | False => destruct H
           | _ = x => subst x; vm_compute; lia
           | In x (list_ascii_of_string (json_escape _)) =>
               exact (json_escape_printable _ x H)
           end.
  - intros key bucket key' bucket' H. apply (f_equal read_input) in H.
    rewrite !Hback in H. injection H as -> ->. auto.
  - intros policy w env r rest arn input Hin.
    apply in_split in Hin as (pre & post & H).
    apply executeWorkflow_start in H
      as (machines & a & r' & rest' & _ & _ & _ & Hrec & -> & _).
    injection Hrec as <- <-. apply Hback.
Qed.

(** ** The handlers that leave the store alone *)

Lemma store_after_rows (w : World) (store : gset (string * string))
  (rows : list (list string)) :
  fold_left (store_step w) (map putItem_of_row rows) store = store.
Proof. induction rows as [|r rows IH]; simpl; auto. Qed.

(** X12.  [executeWorkflow], [processFile] and [sendEmail] never copy or
    delete an object: after any of their runs the store is what it was.
    [processFile] in particular leaves the object it has read in place. *)
Theorem only_moveFile_changes_the_store
  (policy : ThrowPolicy) (w : World) (env : Env) (store : gset (string * string)) :
  (forall event,
      store_after w store (trace (executeWorkflow policy w env event)) = store)
  /\ (forall event,
        store_after w store (trace (processFile policy w event)) = store)
  /\ (forall event,
        store_after w store (trace (sendEmail policy w env event)) = store).
Proof.
  split; [|split].
  - intros [Records|]; [|reflexivity].
    rewrite executeWorkflow_run. unfold store_after.
    destruct (respond w ListStateMachines) as [e|data]; [reflexivity|].
    destruct data as [| | | | |machines| | |];
      try solve [destruct policy; reflexivity].
    destruct (scan (STEP_FUNCTION_NAME env) machines) as [a|];
      [|destruct policy; reflexivity].
    destruct Records as [|r rest]; [destruct policy; reflexivity|].
    cbv zeta. destruct (respond w (StartExecution _ _)); reflexivity.
  - intros event.
    destruct (respond w (WaitForObjectExists (bucketName event) (objectKey event)))
      as [e|d] eqn:Hwait.
    + rewrite (processFile_unavailable policy w event e Hwait). reflexivity.
    + rewrite (processFile_available policy w event d Hwait).
      unfold store_after, trace. simpl. rewrite requests_rows.
      apply store_after_rows.
  - intros event. unfold sendEmail, waterfall, nextTask, sdk, trace, store_after.
    destruct (respond w _); reflexivity.
Qed.

(** ** Executions started by [executeWorkflow] *)

(** X13.  One invocation of [executeWorkflow] starts at most one
    execution, and only on a state machine that the listing returned under
    the wanted name: the ARN of the request is the ARN of an entry of the
    listing whose name is [STEP_FUNCTION_NAME]. *)
Theorem executeWorkflow_starts_at_most_once
  (policy : ThrowPolicy) (w : World) (env : Env) (event : TriggerEvent) :
  let log := trace (executeWorkflow policy w env event) in
  length (List.filter is_start (requests log)) <= 1
  /\
  (forall arn input,
      In (StartExecution arn input) (requests log) ->
      exists machines item,
        respond w ListStateMachines = Success (VListing machines) /\
        In item machines /\
        name item = STEP_FUNCTION_NAME env /\
        arn = VStr (stateMachineArn item)).
Proof.
  intros log. subst log. destruct event as [Records|].
  2:{ split; [simpl; lia|]. intros arn input []. }
  rewrite executeWorkflow_run.
  destruct (respond w ListStateMachines) as [e|data] eqn:Hlist.
  { split; [simpl; lia|]. simpl. intros arn input [H|[]]. discriminate. }
  destruct data as [| | | | |machines| | |];
    try solve [destruct policy; unfold thrown;
              (split; [simpl; lia|simpl; intros arn input [H|[]]; discriminate])].
  destruct (scan (STEP_FUNCTION_NAME env) machines) as [a|] eqn:Hscan;
    [|destruct policy; unfold thrown;
              (split; [simpl; lia|simpl; intros arn input [H|[]]; discriminate])].
  destruct Records as [|r rest];
    [destruct policy; unfold thrown;
              (split; [simpl; lia|simpl; intros arn input [H|[]]; discriminate])|].
  apply scan_first_match in Hscan
    as (before & item & after & -> & Hname & Harn & _).
  cbv zeta.
  subst a.
  assert (Hitem : exists machines item',
             Success (VListing (before ++ item :: after)) = Success (VListing machines)
             /\ In item' machines
             /\ name item' = STEP_FUNCTION_NAME env
             /\ VStr (stateMachineArn item) = VStr (stateMachineArn item')).
  { exists (before ++ item :: after), item.
    split; [reflexivity|]. split; [apply in_elt|]. auto. }
  destruct (respond w (StartExecution _ _));
    (split; [simpl; lia|]);
    simpl; intros arn input [H|[H|[]]]; try discriminate;
    injection H as <- _; exact Hitem.
Qed.
